(** * AssureAI bulk call dispatcher: the queue processor and its helpers

    A shallow embedding of
      - [src/server/services/bolna.ts]: [formatPhoneNumber], the phone
        normalization inside [triggerOutboundCall], and (second half of the
        file, the job module) [processCallQueue] with its exclusion map
        [activeProcessors], [CALL_DELAY] and [MAX_CONCURRENT_CALLS];
      - [src/server/utils/fileParser.ts]: [findDuplicates];
      - the bulk-call routes ([router.post('/upload')], ['/retry'],
        ['/retry-all']);
      - the Mongoose schema of [BulkCallQueue] (defaults, setters and
        timestamps);
      - further, of the same files: [validatePhoneNumber] and the body of
        [triggerOutboundCall]; [retryFailedCalls], [processAllPendingCalls]
        and [getQueueStats]; the routes for one entry ([router.get('/:id')],
        [router.delete('/:id')]); [parseCSV]; the middleware
        [authenticateToken] and [authorizeAdmin].

    JavaScript strings are sequences of UTF-16 code units and are modelled
    as [list N]; [js "..."] embeds an ASCII literal. *)

From Stdlib Require Import String Ascii.
From stdpp Require Import base numbers list gmap sorting pretty.

Local Open Scope N_scope.

(** ** JavaScript strings *)

Module JsString.

Abbreviation jsstring := (list N).

Definition js (s : string) : jsstring :=
  N_of_ascii <$> list_ascii_of_string s.

(** [\d] : the code units of '0'..'9'. *)
Definition is_digit (c : N) : bool := (48 <=? c) && (c <=? 57).

(** [\s], which is also the set that [String.prototype.trim] strips:
    WhiteSpace and LineTerminator of ECMAScript. *)
Definition is_space (c : N) : bool :=
  ((9 <=? c) && (c <=? 13)) || (c =? 32) || (c =? 160) || (c =? 5760)
  || ((8192 <=? c) && (c <=? 8202)) || (c =? 8232) || (c =? 8233)
  || (c =? 8239) || (c =? 8287) || (c =? 12288) || (c =? 65279).

Fixpoint dropWhile (p : N → bool) (s : jsstring) : jsstring :=
  match s with
  | [] => []
  | c :: s' => if p c then dropWhile p s' else s
  end.

(** [s.trim()] *)
Definition trim (s : jsstring) : jsstring :=
  reverse (dropWhile is_space (reverse (dropWhile is_space s))).

(** [s.startsWith(prefix)] *)
Fixpoint startsWith (s prefix : jsstring) {struct prefix} : bool :=
  match prefix, s with
  | [], _ => true
  | p :: prefix', c :: s' => (c =? p) && startsWith s' prefix'
  | _ :: _, [] => false
  end.

(** Truthiness of a string: the empty string is falsy. *)
Definition truthy (s : jsstring) : bool :=
  match s with [] => false | _ :: _ => true end.

(** [x || dflt] for an optional string [x] ([undefined] and [''] are falsy). *)
Definition or_else (x : option jsstring) (dflt : jsstring) : jsstring :=
  match x with
  | Some s => if truthy s then s else dflt
  | None => dflt
  end.

End JsString.
Import JsString.

(** ** Phone numbers (src/server/services/bolna.ts) *)

(** [phone.replace(/\D/g, '')] *)
Definition strip_non_digits (phone : jsstring) : jsstring :=
  filter (λ c, is_digit c) phone.

Definition formatPhoneNumber (phone : jsstring) : jsstring :=
  let cleaned := strip_non_digits phone in
  if negb (startsWith phone (js "+")) then
    if (N.of_nat (length cleaned) =? 10)
    then js "+91" ++ cleaned
    else js "+" ++ cleaned
  else js "+" ++ cleaned.

(** The normalization that [triggerOutboundCall] applies to its [phone]
    argument before it builds the request payload (the local variable
    [formattedPhone], sent as [recipient_phone_number]). *)
Definition recipient_phone_number (phone : jsstring) : jsstring :=
  let formattedPhone := trim phone in
  let formattedPhone :=
    filter (λ c, ¬ (is_space c || (c =? 45))) formattedPhone in
  if negb (startsWith formattedPhone (js "+")) then
    if (N.of_nat (length formattedPhone) =? 10)
    then js "+91" ++ formattedPhone
    else js "+" ++ formattedPhone
  else formattedPhone.


(** ** Data model (the Mongoose schema of BulkCallQueue) *)

Inductive Status := pending | processing | completed | failed.

#[global] Instance Status_eq_dec : EqDecision Status.
Proof. solve_decision. Defined.

(** One document of the collection. [callAttempts] is a JavaScript number
    that only ever holds a small count; timestamps are milliseconds.
    The schema has [timestamps: true]: [createdAt] and [updatedAt] are
    maintained by Mongoose, which sets both when a document is inserted and
    [updatedAt] again whenever a document is saved or updated.
    The interaction snapshot fields and [metadata] are left out: no code
    embedded here reads or assigns them. *)
Record IBulkCallQueue := {
  _id : nat;
  userId : jsstring;
  name : jsstring;
  phone : jsstring;
  city : option jsstring;
  email : option jsstring;
  notes : option jsstring;
  status : Status;
  bolnaCallId : option jsstring;
  errorMessage : option jsstring;
  callAttempts : nat;
  lastAttemptAt : option N;
  createdAt : N;
  updatedAt : N;
}.

Definition set_status (s : Status) (d : IBulkCallQueue) : IBulkCallQueue :=
  {| _id := _id d; userId := userId d; name := name d; phone := phone d;
     city := city d; email := email d; notes := notes d;
     status := s;
     bolnaCallId := bolnaCallId d; errorMessage := errorMessage d;
     callAttempts := callAttempts d; lastAttemptAt := lastAttemptAt d;
     createdAt := createdAt d; updatedAt := updatedAt d |}.

Definition set_bolnaCallId (x : option jsstring) (d : IBulkCallQueue) : IBulkCallQueue :=
  {| _id := _id d; userId := userId d; name := name d; phone := phone d;
     city := city d; email := email d; notes := notes d;
     status := status d;
     bolnaCallId := x; errorMessage := errorMessage d;
     callAttempts := callAttempts d; lastAttemptAt := lastAttemptAt d;
     createdAt := createdAt d; updatedAt := updatedAt d |}.

Definition set_errorMessage (x : option jsstring) (d : IBulkCallQueue) : IBulkCallQueue :=
  {| _id := _id d; userId := userId d; name := name d; phone := phone d;
     city := city d; email := email d; notes := notes d;
     status := status d;
     bolnaCallId := bolnaCallId d; errorMessage := x;
     callAttempts := callAttempts d; lastAttemptAt := lastAttemptAt d;
     createdAt := createdAt d; updatedAt := updatedAt d |}.

Definition set_callAttempts (n : nat) (d : IBulkCallQueue) : IBulkCallQueue :=
  {| _id := _id d; userId := userId d; name := name d; phone := phone d;
     city := city d; email := email d; notes := notes d;
     status := status d;
     bolnaCallId := bolnaCallId d; errorMessage := errorMessage d;
     callAttempts := n; lastAttemptAt := lastAttemptAt d;
     createdAt := createdAt d; updatedAt := updatedAt d |}.

Definition set_lastAttemptAt (t : option N) (d : IBulkCallQueue) : IBulkCallQueue :=
  {| _id := _id d; userId := userId d; name := name d; phone := phone d;
     city := city d; email := email d; notes := notes d;
     status := status d;
     bolnaCallId := bolnaCallId d; errorMessage := errorMessage d;
     callAttempts := callAttempts d; lastAttemptAt := t;
     createdAt := createdAt d; updatedAt := updatedAt d |}.

Definition set_updatedAt (t : N) (d : IBulkCallQueue) : IBulkCallQueue :=
  {| _id := _id d; userId := userId d; name := name d; phone := phone d;
     city := city d; email := email d; notes := notes d;
     status := status d;
     bolnaCallId := bolnaCallId d; errorMessage := errorMessage d;
     callAttempts := callAttempts d; lastAttemptAt := lastAttemptAt d;
     createdAt := createdAt d; updatedAt := t |}.

(** [BolnaCallResponse] of bolna.ts *)
Record BolnaCallResponse := {
  success : bool;
  callId : option jsstring;
  message : option jsstring;
  error : option jsstring;
}.

(** The [additionalMetadata] object the processor passes along. *)
Record Metadata := {
  meta_city : option jsstring;
  meta_email : option jsstring;
  meta_notes : option jsstring;
}.

(** ** The world around the processor *)

Inductive Event :=
  | EvFind (user : jsstring)
  | EvFindPhones (user : jsstring) (phones : list jsstring)
  | EvUpdateMany (user : jsstring)
  | EvInsertMany (user : jsstring) (n : nat)
  | EvSave (doc : IBulkCallQueue)
  | EvCall (at_ms : N) (recipient contactName user : jsstring)
  | EvDelay (ms : N).

(** Process-wide state: the stored collection (in insertion order), the
    module-level map [activeProcessors], a wall clock in milliseconds, the
    number of requests issued so far to the store or the provider, and the
    requests and timers in the order they happened. *)
Record World := {
  collection : list IBulkCallQueue;
  activeProcessors : gmap jsstring bool;
  now : N;
  ops : nat;
  trace : list Event;
}.

(** How a promise settles. *)
Inductive Settled (A : Type) :=
  | Resolved (a : A)
  | Rejected (msg : jsstring).
Arguments Resolved {A} a.
Arguments Rejected {A} msg.

(** The collaborators, resolved per request: whether the k-th request, when
    it is a collection-level store request (find, updateMany, insertMany) or
    a document save, is rejected (with which message), and how the provider
    call settles and how long it takes.
    In bolna.ts [triggerOutboundCall] wraps its whole body in try/catch and so
    always resolves; the processor awaits it inside its own try block, and the
    model lets the promise reject as well, as a replaced dispatch service may. *)
Record Env := {
  query_outcome : nat → option jsstring;
  save_outcome : nat → IBulkCallQueue → option jsstring;
  call_outcome : nat → jsstring → jsstring → jsstring → Metadata →
                 Settled BolnaCallResponse;
  call_latency : nat → N;
}.

(** ** A state monad with exceptions *)

Inductive Completion (A : Type) :=
  | Normal (a : A)
  | Throw (msg : jsstring).
Arguments Normal {A} a.
Arguments Throw {A} msg.

Definition M (S A : Type) : Type := S → Completion A * S.

Definition ret {S A} (a : A) : M S A := λ s, (Normal a, s).

Definition bind {S A B} (m : M S A) (k : A → M S B) : M S B :=
  λ s, match m s with
       | (Normal a, s') => k a s'
       | (Throw e, s') => (Throw e, s')
       end.

(** [try { body } catch (error) { handler(error.message) }]: what the body
    did to the state before it threw is kept. *)
Definition try_catch {S A} (body : M S A) (handler : jsstring → M S A) : M S A :=
  λ s, match body s with
       | (Normal a, s') => (Normal a, s')
       | (Throw e, s') => handler e s'
       end.

Definition modify {S} (f : S → S) : M S unit := λ s, (Normal tt, f s).

(** Run a computation on the first component of a pair of states. *)
Definition zoom {S T A} (m : M S A) : M (S * T) A :=
  λ st, match m st.1 with (r, s') => (r, (s', st.2)) end.

Notation "'let*' x ':=' m 'in' k" := (bind m (λ x, k))
  (at level 10, x name, m at level 100, k at level 200).
Notation "m ';>' k" := (bind m (λ _, k))
  (at level 100, k at level 200, right associativity).

(** ** The store and the other primitives *)

(** Every request to a collaborator is numbered and recorded. *)
Definition record (ev : Event) (w : World) : World :=
  {| collection := collection w; activeProcessors := activeProcessors w;
     now := now w; ops := S (ops w); trace := trace w ++ [ev] |}.

Definition set_collection (c : list IBulkCallQueue) (w : World) : World :=
  {| collection := c; activeProcessors := activeProcessors w;
     now := now w; ops := ops w; trace := trace w |}.

Definition set_activeProcessors (a : gmap jsstring bool) (w : World) : World :=
  {| collection := collection w; activeProcessors := a;
     now := now w; ops := ops w; trace := trace w |}.

Definition advance (ms : N) (w : World) : World :=
  {| collection := collection w; activeProcessors := activeProcessors w;
     now := now w + ms; ops := ops w; trace := trace w |}.

(** What a successful [doc.save()] does to the collection: the stored
    document with the same [_id] takes the field values of [doc] as it is
    written. Nothing else mutates the store during a run, so the document
    is still there. *)
Definition store_put (doc : IBulkCallQueue) (c : list IBulkCallQueue)
  : list IBulkCallQueue :=
  (λ e, if decide (_id e = _id doc) then doc else e) <$> c.

Definition is_pending_of (user : jsstring) (d : IBulkCallQueue) : Prop :=
  userId d = user ∧ status d = pending.

#[global] Instance is_pending_of_dec user d : Decision (is_pending_of user d).
Proof. unfold is_pending_of. apply _. Defined.

Definition MAX_CONCURRENT_CALLS : nat := 5.
Definition CALL_DELAY : N := 2000.

Definition older (a b : IBulkCallQueue) : Prop := createdAt a ≤ createdAt b.

#[global] Instance older_dec a b : Decision (older a b).
Proof. unfold older. apply _. Defined.

(** [find({userId, status: 'pending'}).sort({createdAt: 1}).limit(5)]
    as a pure query. Among documents with equal [createdAt] the database
    may answer in any order; the sort used here fixes one. *)
Definition pending_batch (user : jsstring) (c : list IBulkCallQueue)
  : list IBulkCallQueue :=
  take MAX_CONCURRENT_CALLS (merge_sort older (filter (is_pending_of user) c)).

Section Primitives.
Variable env : Env.

Definition find_pending (user : jsstring) : M World (list IBulkCallQueue) :=
  λ w, let w' := record (EvFind user) w in
       match query_outcome env (ops w) with
       | Some msg => (Throw msg, w')
       | None => (Normal (pending_batch user (collection w)), w')
       end.

(** [doc.save()] of a document that has been assigned to since it was
    loaded, which is the case at every save of the processor. The pre-save
    hook of the schema's timestamps stamps [updatedAt] with the current time
    before the document is written. The hook stamps the object in memory as
    well; the model leaves that copy alone, since the only later use of its
    [updatedAt] is the next save, which stamps it again. *)
Definition save (doc : IBulkCallQueue) : M World unit :=
  λ w, let doc := set_updatedAt (now w) doc in
       let w' := record (EvSave doc) w in
       match save_outcome env (ops w) doc with
       | Some msg => (Throw msg, w')
       | None => (Normal tt, set_collection (store_put doc (collection w)) w')
       end.

(** [triggerOutboundCall]: the phone is normalized once more, the request
    goes out, and the promise settles after the provider's latency. *)
Definition triggerOutboundCall (phone contactName user : jsstring)
    (additionalMetadata : Metadata) : M World BolnaCallResponse :=
  λ w, let recipient := recipient_phone_number phone in
       let w' := advance (call_latency env (ops w))
                   (record (EvCall (now w) recipient contactName user) w) in
       match call_outcome env (ops w) recipient contactName user
               additionalMetadata with
       | Resolved r => (Normal r, w')
       | Rejected msg => (Throw msg, w')
       end.

(** [delay(ms)]: a timer; the clock has moved by [ms] when it fires. *)
Definition delay (ms : N) : M World unit :=
  λ w, (Normal tt, advance ms (record (EvDelay ms) w)).

(** [new Date()] *)
Definition new_Date : M World N := λ w, (Normal (now w), w).

End Primitives.

(** ** processCallQueue *)

(** The local counters of one invocation of [processCallQueue]. *)
Record Counters := {
  processedCount : nat;
  successCount : nat;
  failedCount : nat;
}.

Definition incr_processed (c : Counters) : Counters :=
  {| processedCount := S (processedCount c); successCount := successCount c;
     failedCount := failedCount c |}.
Definition incr_success (c : Counters) : Counters :=
  {| processedCount := processedCount c; successCount := S (successCount c);
     failedCount := failedCount c |}.
Definition incr_failed (c : Counters) : Counters :=
  {| processedCount := processedCount c; successCount := successCount c;
     failedCount := S (failedCount c) |}.

(** State of the loop body: the world and the counters, and the document
    object [call] that the body mutates in memory and saves. *)
Abbreviation Frame := (World * Counters)%type.
Abbreviation Body := (World * Counters * IBulkCallQueue)%type.

Definition in_world {A} (m : M World A) : M Body A := zoom (zoom m).
Definition counters : M Body Counters := λ s, (Normal s.1.2, s).
Definition count (f : Counters → Counters) : M Body unit :=
  modify (λ s, (s.1.1, f s.1.2, s.2)).
Definition call : M Body IBulkCallQueue := λ s, (Normal s.2, s).
Definition assign (f : IBulkCallQueue → IBulkCallQueue) : M Body unit :=
  modify (λ s, (s.1, f s.2)).

(** How the run ended: the guard returned at once, the loop drained the
    queue, or the outer catch logged a run-level error. *)
Inductive RunOutcome :=
  | AlreadyRunning
  | Drained
  | RunError (msg : jsstring).

Section Processor.
Variable env : Env.

(** The try block of the for loop, for a batch of [len] documents. *)
Definition try_block (user : jsstring) (len : nat) : M Body unit :=
  assign (set_status processing) ;>
  assign (λ c, set_callAttempts (callAttempts c + 1)%nat c) ;>
  let* t := in_world new_Date in
  assign (set_lastAttemptAt (Some t)) ;>
  let* c := call in
  in_world (save env c) ;>
  let formattedPhone := formatPhoneNumber (phone c) in
  let* result := in_world (triggerOutboundCall env formattedPhone (name c) user
                   {| meta_city := city c; meta_email := email c;
                      meta_notes := notes c |}) in
  (if success result && truthy (default [] (callId result)) then
     assign (set_status completed) ;>
     assign (set_bolnaCallId (callId result)) ;>
     assign (set_errorMessage None) ;>
     let* c := call in
     in_world (save env c) ;>
     count incr_success
   else
     assign (set_status failed) ;>
     assign (set_errorMessage (Some (or_else (error result) (js "Unknown error")))) ;>
     let* c := call in
     in_world (save env c) ;>
     count incr_failed) ;>
  count incr_processed ;>
  let* n := counters in
  if decide (processedCount n < len)%nat
  then in_world (delay CALL_DELAY)
  else ret tt.

(** The catch block of the for loop. *)
Definition catch_block (msg : jsstring) : M Body unit :=
  assign (set_status failed) ;>
  assign (set_errorMessage (Some (or_else (Some msg) (js "Processing error")))) ;>
  let* c := call in
  in_world (save env c) ;>
  count incr_failed ;>
  count incr_processed.

(** One iteration of [for (const call of pendingCalls)]. *)
Definition for_body (user : jsstring) (len : nat) (doc : IBulkCallQueue)
  : M Frame unit :=
  λ f, match try_catch (try_block user len) catch_block (f, doc) with
       | (r, (f', _)) => (r, f')
       end.

Fixpoint for_of (user : jsstring) (len : nat) (docs : list IBulkCallQueue)
  : M Frame unit :=
  match docs with
  | [] => ret tt
  | doc :: rest => for_body user len doc ;> for_of user len rest
  end.

(** [while (true)], bounded by [fuel] iterations; [None] when the bound
    is reached before the loop has ended. *)
Fixpoint while_true (fuel : nat) (user : jsstring) (f : Frame)
  : option (Completion unit * Frame) :=
  match fuel with
  | O => None
  | S fuel' =>
    match zoom (find_pending env user) f with
    | (Throw msg, f1) => Some (Throw msg, f1)
    | (Normal pendingCalls, f1) =>
      if decide (length pendingCalls = 0)%nat then Some (Normal tt, f1)
      else
        match (for_of user (length pendingCalls) pendingCalls ;>
               zoom (delay 1000)) f1 with
        | (Throw msg, f2) => Some (Throw msg, f2)
        | (Normal _, f2) => while_true fuel' user f2
        end
    end
  end.

(** The guard, then [activeProcessors.set(userId, true)], then the loop
    inside [try]; the outer [catch] only logs, and [finally] deletes the
    owner from the map. The function returns nothing; the model returns
    which of its three closing log lines the run reached. *)
Definition processCallQueue (fuel : nat) (user : jsstring) (w : World)
  : option (RunOutcome * World) :=
  if default false (activeProcessors w !! user) then Some (AlreadyRunning, w)
  else
    let w0 := set_activeProcessors (<[user := true]> (activeProcessors w)) w in
    let zero := {| processedCount := 0; successCount := 0; failedCount := 0 |} in
    match while_true fuel user (w0, zero) with
    | None => None
    | Some (r, (w1, _)) =>
      let w2 := set_activeProcessors (delete user (activeProcessors w1)) w1 in
      Some (match r with Normal _ => Drained | Throw msg => RunError msg end, w2)
    end.

End Processor.

(** ** The bulk-call routes *)

(** [ParsedContact] and [ParseResult] of fileParser.ts *)
Record ParsedContact := {
  pc_name : jsstring;
  pc_phone : jsstring;
  pc_city : option jsstring;
  pc_email : option jsstring;
  pc_notes : option jsstring;
}.

Record ParseResult := {
  pr_success : bool;
  pr_contacts : list ParsedContact;
  pr_errors : list jsstring;
  pr_totalRows : nat;
  pr_validRows : nat;
}.

(** [findDuplicates] of fileParser.ts; [existingContacts] are the stored
    documents the query returned, of which only [phone] is read. *)
Definition findDuplicates (newContacts : list ParsedContact)
    (existingContacts : list IBulkCallQueue) : list jsstring :=
  let existingPhones : gset jsstring := list_to_set (phone <$> existingContacts) in
  pc_phone <$> filter (λ contact, pc_phone contact ∈ existingPhones) newContacts.

(** [updateMany(filter, {$set: {status}})] at time [t] as a pure update.
    Under the schema's timestamps Mongoose adds [updatedAt: t] to the [$set],
    so every matched document gets the new status and the new [updatedAt].
    The result is the new collection and [modifiedCount], the number of
    matched documents that the update changed. *)
Definition updateMany_status (P : IBulkCallQueue → Prop) `{!∀ d, Decision (P d)}
    (s : Status) (t : N) (c : list IBulkCallQueue) : list IBulkCallQueue * nat :=
  ((λ d, if decide (P d) then set_updatedAt t (set_status s d) else d) <$> c,
   length (filter (λ d, P d ∧ (status d ≠ s ∨ updatedAt d ≠ t)) c)).

Inductive RetryResponse :=
  | RetryOk (retriedCount : nat)            (* 200 *)
  | RetryBadRequest                         (* 400 *)
  | RetryNotFound (error : jsstring)        (* 404 *)
  | RetryFailed (details : jsstring).       (* 500 *)

Record UploadRequest := {
  up_userId : option jsstring;              (* req.user?.userId *)
  up_file : option jsstring;                (* req.file?.path *)
  up_checkDuplicates : option jsstring;     (* req.body.checkDuplicates *)
}.

Record UploadSummary := {
  totalRows : nat;
  validRows : nat;
  savedContacts : nat;
  errors : nat;
  duplicatesFound : nat;
}.

Inductive UploadResponse :=
  | UploadNoFile                                               (* 400 *)
  | UploadUnauthorized                                         (* 401 *)
  | UploadParseFailed (details : list jsstring) (total valid : nat)  (* 400 *)
  | UploadCreated (summary : UploadSummary)
      (contacts : list (nat * jsstring * jsstring * Status))
      (errs : list jsstring) (duplicates : list jsstring)      (* 201 *)
  | UploadFailed (details : jsstring).                         (* 500 *)

Section Routes.
Variable env : Env.
(** [String.prototype.toLowerCase], used by the schema's [lowercase]
    setter, and the contact extractor, which reads the uploaded file. *)
Variable toLowerCase : jsstring → jsstring.
Variable parseContactFile : jsstring → ParseResult.

Definition updateMany (user : jsstring) (P : IBulkCallQueue → Prop)
    `{!∀ d, Decision (P d)} (s : Status) : M World nat :=
  λ w, let w' := record (EvUpdateMany user) w in
       match query_outcome env (ops w) with
       | Some msg => (Throw msg, w')
       | None =>
         let r := updateMany_status P s (now w) (collection w) in
         (Normal r.2, set_collection r.1 w')
       end.

(** A route handler answers and may start the processor for an owner
    without awaiting it; the second component is that owner. *)
Definition start_processor (user : jsstring) : option jsstring :=
  if truthy user then Some user else None.

(** [router.post('/retry-all')] *)
Definition retry_all (user : jsstring) : M World (RetryResponse * option jsstring) :=
  try_catch
    (let* modifiedCount :=
       updateMany user (λ d, userId d = user ∧ status d = failed) pending in
     if decide (modifiedCount = 0)%nat
     then ret (RetryNotFound (js "No failed calls found"), None)
     else ret (RetryOk modifiedCount, start_processor user))
    (λ msg, ret (RetryFailed msg, None)).

(** [router.post('/retry')]; [callIds] is [None] when the body has no
    array under that key. *)
Definition retry (user : jsstring) (callIds : option (list nat))
  : M World (RetryResponse * option jsstring) :=
  try_catch
    (match callIds with
     | None | Some [] => ret (RetryBadRequest, None)
     | Some ids =>
       let* modifiedCount :=
         updateMany user
           (λ d, _id d ∈ ids ∧ userId d = user ∧ status d = failed) pending in
       if decide (modifiedCount = 0)%nat
       then ret (RetryNotFound (js "No failed calls found to retry"), None)
       else ret (RetryOk modifiedCount, start_processor user)
     end)
    (λ msg, ret (RetryFailed msg, None)).

(** [find({userId, phone: {$in: phones}}, {phone: 1})] *)
Definition find_phones (user : jsstring) (phones : list jsstring)
  : M World (list IBulkCallQueue) :=
  λ w, let w' := record (EvFindPhones user phones) w in
       match query_outcome env (ops w) with
       | Some msg => (Throw msg, w')
       | None =>
         (Normal (filter (λ d, userId d = user ∧ phone d ∈ phones) (collection w)),
          w')
       end.

(** A new document as the schema builds it from one element of
    [contactsToSave]: string setters ([trim], [lowercase]) applied, the
    given [status] and [callAttempts], both timestamps set to the time of
    the insertion, the remaining paths unset. *)
Definition new_document (id : nat) (t : N) (user : jsstring)
    (contact : ParsedContact) : IBulkCallQueue :=
  {| _id := id; userId := user;
     name := trim (pc_name contact); phone := trim (pc_phone contact);
     city := trim <$> pc_city contact;
     email := (λ e, toLowerCase (trim e)) <$> pc_email contact;
     notes := trim <$> pc_notes contact;
     status := pending; bolnaCallId := None; errorMessage := None;
     callAttempts := 0; lastAttemptAt := None; createdAt := t;
     updatedAt := t |}.

(** The schema's [required] validators. *)
Definition valid_document (d : IBulkCallQueue) : bool :=
  truthy (userId d) && truthy (name d) && truthy (phone d).

(** [insertMany]: all documents are validated first and nothing is sent
    when one is invalid; fresh identifiers are assigned in order. *)
Definition insertMany (user : jsstring) (contactsToSave : list ParsedContact)
  : M World (list IBulkCallQueue) :=
  λ w, let first := S (max_list (_id <$> collection w)) in
       let docs := imap (λ i, new_document (first + i)%nat (now w) user)
                     contactsToSave in
       if forallb valid_document docs then
         let w' := record (EvInsertMany user (length docs)) w in
         match query_outcome env (ops w) with
         | Some msg => (Throw msg, w')
         | None => (Normal docs, set_collection (collection w ++ docs) w')
         end
       else (Throw (js "BulkCallQueue validation failed"), w).

(** The handler of [router.post('/upload', upload.single('file'), ...)]:
    what runs once multer has accepted the request and stored the file. A
    request that multer rejects (file type, size) never reaches it. *)
Definition upload (req : UploadRequest) : M World (UploadResponse * option jsstring) :=
  try_catch
    (let userId := default [] (up_userId req) in
     let checkDuplicates := bool_decide (up_checkDuplicates req = Some (js "true")) in
     if negb (truthy (default [] (up_file req))) then ret (UploadNoFile, None)
     else if negb (truthy userId) then ret (UploadUnauthorized, None)
     else
       let parseResult := parseContactFile (default [] (up_file req)) in
       if negb (pr_success parseResult)
          || bool_decide (length (pr_contacts parseResult) = 0)%nat
       then ret (UploadParseFailed (pr_errors parseResult)
                   (pr_totalRows parseResult) (pr_validRows parseResult), None)
       else
         let* duplicates :=
           (if checkDuplicates then
              let* existingContacts :=
                find_phones userId (pc_phone <$> pr_contacts parseResult) in
              ret (findDuplicates (pr_contacts parseResult) existingContacts)
            else ret []) in
         let* savedContacts := insertMany userId (pr_contacts parseResult) in
         ret (UploadCreated
                {| totalRows := pr_totalRows parseResult;
                   validRows := pr_validRows parseResult;
                   savedContacts := length savedContacts;
                   errors := length (pr_errors parseResult);
                   duplicatesFound := length duplicates |}
                ((λ c, (_id c, name c, phone c, status c)) <$> savedContacts)
                (pr_errors parseResult) duplicates,
              start_processor userId))
    (λ msg, ret (UploadFailed msg, None)).

End Routes.

(** ** Vocabulary of the statements *)

(** The per-attempt end states of an entry. *)
Definition terminal (e : IBulkCallQueue) : Prop :=
  status e = completed ∨ status e = failed.

(** [e'] is [e], or what a finished attempt leaves in the place of [e]. *)
Definition settled_from (e e' : IBulkCallQueue) : Prop :=
  e' = e ∨ (_id e' = _id e ∧ terminal e' ∧ (1 ≤ callAttempts e')%nat).

(** Number of entries a fetch for [user] can still return. *)
Definition pending_count (user : jsstring) (c : list IBulkCallQueue) : nat :=
  length (filter (is_pending_of user) c).

(** The document as the try block has assigned it when it first saves it,
    when it saves it after the provider answered with [r], and as the catch
    block has assigned it when it saves it. The save itself adds the
    [updatedAt] of that moment ([set_updatedAt]). *)
Definition mark_processing (t : N) (doc : IBulkCallQueue) : IBulkCallQueue :=
  set_lastAttemptAt (Some t)
    (set_callAttempts (callAttempts doc + 1) (set_status processing doc)).

Definition mark_result (r : BolnaCallResponse) (doc1 : IBulkCallQueue)
  : IBulkCallQueue :=
  if success r && truthy (default [] (callId r))
  then set_errorMessage None (set_bolnaCallId (callId r) (set_status completed doc1))
  else set_errorMessage (Some (or_else (error r) (js "Unknown error")))
         (set_status failed doc1).

Definition mark_caught (msg : jsstring) (doc1 : IBulkCallQueue) : IBulkCallQueue :=
  set_errorMessage (Some (or_else (Some msg) (js "Processing error")))
    (set_status failed doc1).

(** Two documents that agree on every field except possibly [status] and
    [updatedAt], the two paths an [updateMany] of the status writes. *)
Definition same_but_status_updatedAt (e e' : IBulkCallQueue) : Prop :=
  _id e' = _id e ∧ userId e' = userId e ∧ name e' = name e ∧ phone e' = phone e ∧
  city e' = city e ∧ email e' = email e ∧ notes e' = notes e ∧
  bolnaCallId e' = bolnaCallId e ∧ errorMessage e' = errorMessage e ∧
  callAttempts e' = callAttempts e ∧ lastAttemptAt e' = lastAttemptAt e ∧
  createdAt e' = createdAt e.

Definition failed_of (user : jsstring) (d : IBulkCallQueue) : Prop :=
  userId d = user ∧ status d = failed.

#[global] Instance failed_of_dec user d : Decision (failed_of user d).
Proof. unfold failed_of. apply _. Defined.

(** Times at which the provider was called, and the timers awaited. *)
Definition call_times (t : list Event) : list N :=
  omap (λ ev, match ev with EvCall at_ms _ _ _ => Some at_ms | _ => None end) t.


Definition timers (t : list Event) : list N :=
  omap (λ ev, match ev with EvDelay ms => Some ms | _ => None end) t.

Definition duplicates_of (r : Completion (UploadResponse * option jsstring))
  : option (list jsstring) :=
  match r with
  | Normal (UploadCreated _ _ _ dups, _) => Some dups
  | _ => None
  end.

(** ** Test doubles *)

Module Double.

Definition owner : jsstring := js "u1".

Definition entry (i : nat) (st : Status) : IBulkCallQueue :=
  {| _id := i; userId := owner; name := js "Asha"; phone := js "9876543210";
     city := None; email := None; notes := None; status := st;
     bolnaCallId := None; errorMessage := None; callAttempts := 0;
     lastAttemptAt := None; createdAt := N.of_nat i;
     updatedAt := N.of_nat i |}.

Definition stored (c : list IBulkCallQueue) : World :=
  {| collection := c; activeProcessors := ∅; now := 0; ops := 0; trace := [] |}.

(** [n] pending entries of [owner], oldest first. *)
Definition queued (n : nat) : World := stored ((λ i, entry i pending) <$> seq 1 n).

(** The same queue while a processor is running for [owner]. *)
Definition busy (n : nat) : World :=
  set_activeProcessors {[ owner := true ]} (queued n).

Definition answer_ok : BolnaCallResponse :=
  {| success := true; callId := Some (js "exec-1");
     message := Some (js "Call initiated successfully"); error := None |}.

Definition answer_error : BolnaCallResponse :=
  {| success := false; callId := None; message := None;
     error := Some (js "No response from Bolna API server") |}.

(** Store and provider answer at once and never fail. *)
Definition instant : Env :=
  {| query_outcome := λ _, None; save_outcome := λ _ _, None;
     call_outcome := λ _ _ _ _ _, Resolved answer_ok;
     call_latency := λ _, 0 |}.

(** The provider reports a failure for every call. *)
Definition unreachable : Env :=
  {| query_outcome := λ _, None; save_outcome := λ _ _, None;
     call_outcome := λ _ _ _ _ _, Resolved answer_error;
     call_latency := λ _, 0 |}.

(** The store answers queries but rejects every save. *)
Definition read_only : Env :=
  {| query_outcome := λ _, None;
     save_outcome := λ _ _, Some (js "store unavailable");
     call_outcome := λ _ _ _ _ _, Resolved answer_ok;
     call_latency := λ _, 0 |}.

(** The store rejects the save of a completed entry and accepts the rest. *)
Definition flaky : Env :=
  {| query_outcome := λ _, None;
     save_outcome := λ _ d,
       if decide (status d = completed) then Some (js "write failed") else None;
     call_outcome := λ _ _ _ _ _, Resolved answer_ok;
     call_latency := λ _, 0 |}.

Definition zero : Counters :=
  {| processedCount := 0; successCount := 0; failedCount := 0 |}.


(** An extractor that found one contact, whose phone is the one of [entry]. *)
Definition one_contact (path : jsstring) : ParseResult :=
  {| pr_success := true;
     pr_contacts := [ {| pc_name := js "Ravi"; pc_phone := js "9876543210";
                         pc_city := None; pc_email := None; pc_notes := None |} ];
     pr_errors := []; pr_totalRows := 1; pr_validRows := 1 |}.

Definition upload_request (checkDuplicates : option jsstring) : UploadRequest :=
  {| up_userId := Some owner; up_file := Some (js "uploads/contacts.csv");
     up_checkDuplicates := checkDuplicates |}.

End Double.

(** * The rest of the dispatcher code *)

(** ** validatePhoneNumber (src/server/services/bolna.ts) *)

(** [/^[1-9]\d{9,14}$/.test(s)] *)
Definition matches_phone_pattern (s : jsstring) : bool :=
  match s with
  | [] => false
  | c :: rest =>
    (49 <=? c) && (c <=? 57) && forallb is_digit rest
    && (9 <=? length rest)%nat && (length rest <=? 14)%nat
  end.

Definition validatePhoneNumber (phone : jsstring) : bool :=
  let cleaned := strip_non_digits phone in
  if (length cleaned <? 10)%nat || (15 <? length cleaned)%nat then false
  else matches_phone_pattern cleaned.

(** Decimal rendering of a non-negative integer in a template literal. *)
Definition decimal (n : N) : jsstring := js (pretty n).

(** ** triggerOutboundCall, the body (src/server/services/bolna.ts) *)

Module Bolna.

(** The variables read from [process.env]. *)
Record ProcessEnv := {
  BOLNA_API_KEY : option jsstring;
  BOLNA_AGENT_ID : option jsstring;
  MOCK_BOLNA_CALLS : option jsstring;
}.

(** The POST to [/call]: the bearer token of the Authorization header and
    the body; [user_data] is [uploadedBy], [contactName] and the spread
    [additionalMetadata]. *)
Record CallRequest := {
  bearer : jsstring;
  agent_id : jsstring;
  recipient : jsstring;
  uploadedBy : jsstring;
  contactName : jsstring;
  additional : Metadata;
}.

(** What the try block can throw, as the catch block tells the cases apart:
    an [Error] of the function itself (neither [response] nor [request]),
    an axios error with a response (its status, [data.message], [data.error]
    and [JSON.stringify(data)]), an axios error with only a request, and an
    axios error raised while the request was set up. *)
Inductive Thrown :=
  | PlainError (msg : jsstring)
  | HttpError (status : N) (data_message data_error : option jsstring)
      (data_json : jsstring)
  | NoResponse
  | SetupError (msg : jsstring).

(** How [axios.post] settles: a response, of which [data.execution_id],
    [data.call_id] and [JSON.stringify(data)] are read, or an error. *)
Inductive AxiosOutcome :=
  | Fulfilled (execution_id call_id : option jsstring) (data_json : jsstring)
  | Failed (e : Thrown).

(** The message the catch block computes. *)
Definition errorMessage_of (e : Thrown) : jsstring :=
  match e with
  | HttpError status data_message data_error data_json =>
    let apiError := or_else data_message (default [] data_error) in
    if truthy apiError
    then js "API Error (" ++ decimal status ++ js "): " ++ apiError
    else js "API Error (" ++ decimal status ++ js "): " ++ data_json
  | NoResponse => js "No response from Bolna API server"
  | PlainError msg | SetupError msg => js "Request setup error: " ++ msg
  end.

(** [triggerOutboundCall], given the environment, how the provider answers
    a request, and the values of [Date.now()] and of the random suffix used
    in mock mode. The result is the resolved [BolnaCallResponse] and the
    request that was sent, if one was. *)
Definition triggerOutboundCall (penv : ProcessEnv)
    (post : CallRequest → AxiosOutcome) (date_now : N) (random : jsstring)
    (phone contactName userId : jsstring) (additionalMetadata : Metadata)
  : BolnaCallResponse * option CallRequest :=
  let api_key := default [] (BOLNA_API_KEY penv) in
  let agent := or_else (BOLNA_AGENT_ID penv) (js "default-agent-id") in
  let tried : (BolnaCallResponse + Thrown) * option CallRequest :=
    if negb (truthy api_key) then
      (inr (PlainError
              (js "BOLNA_API_KEY is not configured in environment variables")),
       None)
    else if negb (truthy agent)
            || bool_decide (agent = js "your-bolna-agent-id-here")
            || bool_decide (agent = js "default-agent-id") then
      (inr (PlainError
              (js "BOLNA_AGENT_ID is not configured. Please add your Bolna Agent ID to .env.local file. Get it from https://app.bolna.dev")),
       None)
    else if bool_decide (MOCK_BOLNA_CALLS penv = Some (js "true")) then
      (inl {| success := true;
              callId := Some (js "mock-call-" ++ decimal date_now ++ js "-"
                              ++ random);
              message := Some (js "Call initiated successfully (MOCK)");
              error := None |},
       None)
    else
      let request :=
        {| bearer := api_key; agent_id := agent;
           recipient := recipient_phone_number phone;
           uploadedBy := userId; contactName := contactName;
           additional := additionalMetadata |} in
      (match post request with
       | Fulfilled execution_id call_id data_json =>
         let callId := or_else execution_id (default [] call_id) in
         if truthy callId then
           inl {| success := true; callId := Some callId;
                  message := Some (js "Call initiated successfully");
                  error := None |}
         else
           inl {| success := false; callId := None; message := None;
                  error := Some (js "Unexpected response format from Bolna API: "
                                 ++ data_json) |}
       | Failed e => inr e
       end,
       Some request)
  in
  match tried with
  | (inl response, sent) => (response, sent)
  | (inr e, sent) =>
    ({| success := false; callId := None; message := None;
        error := Some (errorMessage_of e) |}, sent)
  end.

End Bolna.

(** ** The other jobs of the processor module *)

(** A store request that the recorded trace has no event for: it is
    counted, and not listed. *)
Definition tick (w : World) : World :=
  {| collection := collection w; activeProcessors := activeProcessors w;
     now := now w; ops := S (ops w); trace := trace w |}.

(** [distinct('userId', {status: 'pending'})] as a pure query. *)
Definition distinct_pending_users (c : list IBulkCallQueue) : list jsstring :=
  remove_dups (userId <$> filter (λ d, status d = pending) c).

(** The summary object of [getQueueStats] (and of the list route); its
    fields [pending], [processing], [completed], [failed] carry a prefix
    here. *)
Record QueueSummary := {
  total : nat;
  n_pending : nat;
  n_processing : nat;
  n_completed : nat;
  n_failed : nat;
}.

(** [aggregate([{$match: {userId}}, {$group: {_id: '$status', count}}])]:
    one group per status that occurs among the owner's entries. *)
Definition aggregate_by_status (user : jsstring) (c : list IBulkCallQueue)
  : list (Status * nat) :=
  filter (λ g, g.2 ≠ 0%nat)
    ((λ s, (s, length (filter (λ d, userId d = user ∧ status d = s) c)))
       <$> [pending; processing; completed; failed]).

(** One step of [stats.forEach]: [summary[item._id] = item.count;
    summary.total += item.count]. *)
Definition add_group (summary : QueueSummary) (item : Status * nat) : QueueSummary :=
  let assigned :=
    match item.1 with
    | pending =>
      {| total := total summary; n_pending := item.2;
         n_processing := n_processing summary;
         n_completed := n_completed summary; n_failed := n_failed summary |}
    | processing =>
      {| total := total summary; n_pending := n_pending summary;
         n_processing := item.2;
         n_completed := n_completed summary; n_failed := n_failed summary |}
    | completed =>
      {| total := total summary; n_pending := n_pending summary;
         n_processing := n_processing summary;
         n_completed := item.2; n_failed := n_failed summary |}
    | failed =>
      {| total := total summary; n_pending := n_pending summary;
         n_processing := n_processing summary;
         n_completed := n_completed summary; n_failed := item.2 |}
    end in
  {| total := (total assigned + item.2)%nat; n_pending := n_pending assigned;
     n_processing := n_processing assigned;
     n_completed := n_completed assigned; n_failed := n_failed assigned |}.

Definition summarize (stats : list (Status * nat)) : QueueSummary :=
  foldl add_group
    {| total := 0; n_pending := 0; n_processing := 0; n_completed := 0;
       n_failed := 0 |} stats.

(** How [retryFailedCalls] ended: its [updateMany] was rejected (the catch
    block logs), or the processor was awaited and ended as given. *)
Inductive RetryJob :=
  | ResetRejected (msg : jsstring)
  | ResetThenRun (modifiedCount : nat) (out : RunOutcome).

Section Jobs.
Variable env : Env.

(** [retryFailedCalls(userId, maxRetries = 3)] *)
Definition retryFailedCalls (fuel : nat) (user : jsstring)
    (maxRetries : option nat) (w : World) : option (RetryJob * World) :=
  let maxRetries := default 3%nat maxRetries in
  match updateMany env user
          (λ d, userId d = user ∧ status d = failed ∧
                (callAttempts d < maxRetries)%nat) pending w with
  | (Throw msg, w1) => Some (ResetRejected msg, w1)
  | (Normal modifiedCount, w1) =>
    match processCallQueue env fuel user w1 with
    | None => None
    | Some (out, w2) => Some (ResetThenRun modifiedCount out, w2)
    end
  end.

(** [for (const userId of userIds) await processCallQueue(userId)] *)
Fixpoint process_each (fuel : nat) (userIds : list jsstring) (w : World)
  : option (list RunOutcome * World) :=
  match userIds with
  | [] => Some ([], w)
  | userId :: rest =>
    match processCallQueue env fuel userId w with
    | None => None
    | Some (out, w1) =>
      match process_each fuel rest w1 with
      | None => None
      | Some (outs, w2) => Some (out :: outs, w2)
      end
    end
  end.

(** [processAllPendingCalls]: the outcomes of the runs, in order; none when
    the query for the owners was rejected (the catch block logs). *)
Definition processAllPendingCalls (fuel : nat) (w : World)
  : option (list RunOutcome * World) :=
  match query_outcome env (ops w) with
  | Some msg => Some ([], tick w)
  | None => process_each fuel (distinct_pending_users (collection w)) (tick w)
  end.

(** [getQueueStats]: [None] is the [null] of the catch block. *)
Definition getQueueStats (user : jsstring) (w : World)
  : option QueueSummary * World :=
  match query_outcome env (ops w) with
  | Some msg => (None, tick w)
  | None => (Some (summarize (aggregate_by_status user (collection w))), tick w)
  end.

End Jobs.

(** ** The routes for one entry *)




Section EntryRoutes.
Variable env : Env.



End EntryRoutes.

(** ** The contact extractor for CSV files (src/server/utils/fileParser.ts) *)

(** A row as csv-parser emits it: header to cell, both strings. *)
Abbreviation Row := (gmap jsstring jsstring).

(** [row.a || row.b || ... || ''] *)
Fixpoint first_truthy (row : Row) (columns : list string) : jsstring :=
  match columns with
  | [] => []
  | column :: rest =>
    match row !! js column with
    | Some cell => if truthy cell then cell else first_truthy row rest
    | None => first_truthy row rest
    end
  end.

(** [s?.trim() || undefined] on a string *)
Definition trim_or_undefined (s : jsstring) : option jsstring :=
  if truthy (trim s) then Some (trim s) else None.

(** The ['data'] handler of [parseCSV], on the accumulated result. *)
Definition on_data (acc : ParseResult) (row : Row) : ParseResult :=
  let totalRows := S (pr_totalRows acc) in
  let name := first_truthy row ["name"; "Name"; "NAME"; "contactName";
                                "Contact Name"; "fullName"; "Full Name"] in
  let phone := first_truthy row ["phone"; "Phone"; "PHONE"; "phoneNumber";
                                 "Phone Number"; "mobile"; "Mobile";
                                 "contact"; "Contact"] in
  let city := first_truthy row ["city"; "City"; "CITY"] in
  let email := first_truthy row ["email"; "Email"; "EMAIL"] in
  let notes := first_truthy row ["notes"; "Notes"; "NOTES"; "description";
                                 "Description"] in
  let reject reason :=
    {| pr_success := pr_success acc; pr_contacts := pr_contacts acc;
       pr_errors := pr_errors acc
                    ++ [js "Row " ++ decimal (N.of_nat totalRows) ++ reason];
       pr_totalRows := totalRows; pr_validRows := pr_validRows acc |} in
  if negb (truthy name) || negb (truthy (trim name)) then
    reject (js ": Missing name")
  else if negb (truthy phone) || negb (truthy (trim phone)) then
    reject (js ": Missing phone number")
  else if negb (validatePhoneNumber (trim phone)) then
    reject (js ": Invalid phone number format: " ++ phone)
  else
    {| pr_success := pr_success acc;
       pr_contacts := pr_contacts acc
                      ++ [ {| pc_name := trim name; pc_phone := trim phone;
                              pc_city := trim_or_undefined city;
                              pc_email := trim_or_undefined email;
                              pc_notes := trim_or_undefined notes |} ];
       pr_errors := pr_errors acc;
       pr_totalRows := totalRows; pr_validRows := S (pr_validRows acc) |}.

(** [parseCSV] on what the stream delivers: the rows and then ['end'], or
    an ['error'] with a message. *)
Definition parseCSV (rows : list Row) (stream_error : option jsstring)
  : ParseResult :=
  match stream_error with
  | Some msg =>
    {| pr_success := false; pr_contacts := [];
       pr_errors := [js "Failed to parse CSV: " ++ msg];
       pr_totalRows := 0; pr_validRows := 0 |}
  | None =>
    foldl on_data
      {| pr_success := true; pr_contacts := []; pr_errors := [];
         pr_totalRows := 0; pr_validRows := 0 |} rows
  end.

(** ** The authentication middleware (src/server/middleware/auth.ts) *)

(** [s.split(' ')]: the segments between the space characters of [s]. *)
Fixpoint split_space (s : jsstring) : list jsstring :=
  match s with
  | [] => [[]]
  | c :: s' =>
    if c =? 32 then [] :: split_space s'
    else match split_space s' with
         | segment :: segments => (c :: segment) :: segments
         | [] => [[c]]
         end
  end.

(** What [jwt.verify] hands to its callback on success; a field the payload
    does not carry is [None]. *)
Record Decoded := {
  d_userId : option jsstring;
  d_email : option jsstring;
  d_role : option jsstring;
}.

(** [req.user] *)
Record AuthUser := {
  au_userId : option jsstring;
  au_email : option jsstring;
  au_role : option jsstring;
}.

(** A middleware either answers the request or calls [next()]. *)
Inductive Middleware (A : Type) :=
  | Respond (status : nat) (error : string)
  | CallNext (x : A).
Arguments Respond {A} status error.
Arguments CallNext {A} x.

Section Authentication.
Variable JWT_SECRET : option jsstring.                  (* process.env.JWT_SECRET *)
Variable verify : jsstring → jsstring → option Decoded. (* jwt.verify; None: err *)

(** [authHeader && authHeader.split(' ')[1]] *)
Definition token_of (authHeader : option jsstring) : option jsstring :=
  match authHeader with
  | None => None
  | Some header => if truthy header then split_space header !! 1%nat else Some []
  end.

Definition authenticateToken (authorization : option jsstring)
  : Middleware AuthUser :=
  let token := token_of authorization in
  if negb (truthy (default [] token)) then Respond 401 "Access token required"
  else
    let secret := JWT_SECRET in
    if negb (truthy (default [] secret)) then
      Respond 500 "Server configuration error"
    else
      match verify (default [] token) (default [] secret) with
      | None => Respond 403 "Invalid or expired token"
      | Some decoded =>
        CallNext {| au_userId := d_userId decoded; au_email := d_email decoded;
                    au_role := d_role decoded |}
      end.

Definition authorizeAdmin (user : option AuthUser) : Middleware AuthUser :=
  match user with
  | None => Respond 401 "Authentication required"
  | Some u =>
    if bool_decide (au_role u ≠ Some (js "admin")) then
      Respond 403 "Admin access required"
    else CallNext u
  end.

(** [router.use(authenticateToken, authorizeAdmin)] of the admin router. *)
Definition admin_guard (authorization : option jsstring) : Middleware AuthUser :=
  match authenticateToken authorization with
  | Respond status error => Respond status error
  | CallNext u => authorizeAdmin (Some u)
  end.

End Authentication.

(** [router.use(authenticateToken)] of the bulk-call router followed by the
    upload handler, which reads [req.user?.userId]. *)
Definition authenticated_upload (env : Env) (lc : jsstring → jsstring)
    (parseContactFile : jsstring → ParseResult)
    (JWT_SECRET : option jsstring)
    (verify : jsstring → jsstring → option Decoded)
    (authorization file checkDuplicates : option jsstring)
  : M World (Middleware (UploadResponse * option jsstring)) :=
  match authenticateToken JWT_SECRET verify authorization with
  | Respond status error => ret (Respond status error)
  | CallNext u =>
    let* answer := upload env lc parseContactFile
                     {| up_userId := au_userId u; up_file := file;
                        up_checkDuplicates := checkDuplicates |} in
    ret (CallNext answer)
  end.

(** What the extractor promises about a contact it keeps. *)
Definition well_formed_contact (c : ParsedContact) : Prop :=
  pc_name c ≠ [] ∧ trim (pc_name c) = pc_name c ∧
  pc_phone c ≠ [] ∧ trim (pc_phone c) = pc_phone c ∧
  validatePhoneNumber (pc_phone c) = true ∧
  pc_city c ≠ Some [] ∧ pc_email c ≠ Some [] ∧ pc_notes c ≠ Some [] ∧
  trim <$> pc_city c = pc_city c ∧ trim <$> pc_email c = pc_email c ∧
  trim <$> pc_notes c = pc_notes c.

(** ** More vocabulary *)

(** [d] is [doc] after an attempt: one more attempt, no longer pending, the
    contact and the owner as before. *)
Definition attempted (doc d : IBulkCallQueue) : Prop :=
  _id d = _id doc ∧ userId d = userId doc ∧ name d = name doc ∧
  phone d = phone doc ∧ city d = city doc ∧ email d = email doc ∧
  notes d = notes doc ∧ createdAt d = createdAt doc ∧
  callAttempts d = S (callAttempts doc) ∧ status d ≠ pending.

(** How an entry of the store can differ after a run for [user]. *)
Definition run_effect (user : jsstring) (e e' : IBulkCallQueue) : Prop :=
  e' = e ∨ (is_pending_of user e ∧ attempted e e').

(** Number of provider calls, and of pacing timers, in a trace. *)
Definition calls_in (t : list Event) : nat := length (call_times t).

Definition pacing_in (t : list Event) : nat :=
  length (filter (λ ms, ms = CALL_DELAY) (timers t)).

(** The environment names an API key and an agent that is neither missing
    nor one of the two placeholder values. *)
Definition configured (penv : Bolna.ProcessEnv) : Prop :=
  (∃ key, Bolna.BOLNA_API_KEY penv = Some key ∧ key ≠ []) ∧
  (∃ agent, Bolna.BOLNA_AGENT_ID penv = Some agent ∧ agent ≠ [] ∧
            agent ≠ js "your-bolna-agent-id-here" ∧
            agent ≠ js "default-agent-id").

(** * Theorems *)

(** ** Phone numbers *)

Lemma js_plus : js "+" = [43].
Proof. reflexivity. Qed.

Lemma js_plus91 : js "+91" = [43; 57; 49].
Proof. reflexivity. Qed.

Lemma strip_non_digits_digits phone :
  Forall (λ c, is_digit c = true) (strip_non_digits phone).
Proof.
  unfold strip_non_digits. apply Forall_forall. intros c Hc.
  apply list_elem_of_filter in Hc as [Hd _]. by apply Is_true_true.
Qed.

Lemma strip_non_digits_id ds :
  Forall (λ c, is_digit c = true) ds → strip_non_digits ds = ds.
Proof.
  unfold strip_non_digits. induction 1 as [|c ds Hc _ IH]; [done|].
  rewrite filter_cons_True; [|by apply Is_true_true]. by rewrite IH.
Qed.

Lemma dropWhile_id p s :
  Forall (λ c, p c = false) s → dropWhile p s = s.
Proof. destruct 1 as [|c s Hc _]; [done|]. simpl. by rewrite Hc. Qed.

Lemma digit_not_space c : is_digit c = true → is_space c = false.
Proof.
  unfold is_digit, is_space. intros H.
  apply andb_true_iff in H as [H1 H2].
  apply N.leb_le in H1, H2.
  repeat match goal with
  | |- context [(?a =? ?b)] => destruct (N.eqb_spec a b); [lia|]
  | |- context [(?a <=? ?b)] => destruct (N.leb_spec a b); try lia
  end; reflexivity.
Qed.

Lemma digit_not_dash c : is_digit c = true → (c =? 45) = false.
Proof.
  unfold is_digit. intros H. apply andb_true_iff in H as [H1 H2].
  apply N.leb_le in H1, H2. apply N.eqb_neq. lia.
Qed.

(** Every output is a plus sign followed by digits only. *)
Lemma formatPhoneNumber_shape phone :
  ∃ ds, formatPhoneNumber phone = 43 :: ds ∧ Forall (λ c, is_digit c = true) ds.
Proof.
  pose proof (strip_non_digits_digits phone) as Hd.
  unfold formatPhoneNumber. rewrite js_plus91, js_plus.
  destruct (negb _); [destruct (_ =? _)|]; simpl.
  - exists (57 :: 49 :: strip_non_digits phone). split; [reflexivity|].
    do 2 (constructor; [reflexivity|]). exact Hd.
  - eauto.
  - eauto.
Qed.

(** A plus sign followed by digits is left alone by both normalizations. *)
Lemma plus_digits_fixed ds :
  Forall (λ c, is_digit c = true) ds →
  formatPhoneNumber (43 :: ds) = 43 :: ds ∧
  recipient_phone_number (43 :: ds) = 43 :: ds.
Proof.
  intros Hd.
  assert (Hns : Forall (λ c, is_space c = false) (43 :: ds)).
  { constructor; [done|]. eapply Forall_impl; [exact Hd|]. apply digit_not_space. }
  split.
  - unfold formatPhoneNumber.
    rewrite js_plus. cbn [startsWith negb N.eqb Pos.eqb andb].
    change (strip_non_digits (43 :: ds)) with (strip_non_digits ds).
    by rewrite strip_non_digits_id.
  - unfold recipient_phone_number, trim.
    rewrite (dropWhile_id _ _ Hns).
    rewrite dropWhile_id by (by apply Forall_reverse).
    rewrite reverse_involutive.
    assert (Hf : filter (λ c, ¬ (is_space c || (c =? 45))) (43 :: ds) = 43 :: ds).
    { rewrite filter_cons_True by (simpl; tauto). f_equal.
      clear Hns. induction Hd as [|c ds Hc _ IH]; [done|].
      rewrite filter_cons_True; [by rewrite IH|].
      rewrite (digit_not_space c Hc), (digit_not_dash c Hc). simpl. tauto. }
    rewrite Hf, js_plus. done.
Qed.

(** C9. formatPhoneNumber removes every character that is not a digit and
    keeps the digits in order; the result is "+" and the cleaned digits when
    the input starts with "+", otherwise "+91" and the digits when exactly
    ten digits are left, otherwise "+" and the digits. "9876543210" gives
    "+919876543210" and "+1 202-555-0173" gives "+12025550173". *)
Theorem formatPhoneNumber_spec (phone : jsstring) :
  let cleaned := strip_non_digits phone in
  Forall (λ c, is_digit c = true) cleaned
  ∧ cleaned = filter (λ c, is_digit c) phone
  ∧ formatPhoneNumber phone =
      (if startsWith phone (js "+") then js "+" ++ cleaned
       else if decide (length cleaned = 10%nat) then js "+91" ++ cleaned
       else js "+" ++ cleaned)
  ∧ formatPhoneNumber (js "9876543210") = js "+919876543210"
  ∧ formatPhoneNumber (js "+1 202-555-0173") = js "+12025550173".
Proof.
  intros cleaned. split; [apply strip_non_digits_digits|].
  split; [reflexivity|]. split; [|split; reflexivity].
  subst cleaned. unfold formatPhoneNumber.
  destruct (startsWith phone (js "+")); cbn [negb]; [done|].
  case_decide as H.
  - rewrite H. done.
  - destruct (N.eqb_spec (N.of_nat (length (strip_non_digits phone))) 10) as [E|E];
      [|done].
    exfalso. apply H. lia.
Qed.

(** C10. formatPhoneNumber is idempotent: its output is "+" followed by
    digits only, which it maps to itself; and the normalization that
    triggerOutboundCall applies to the number it is given leaves such an
    output unchanged too. *)
Theorem formatPhoneNumber_idempotent (p : jsstring) :
  formatPhoneNumber (formatPhoneNumber p) = formatPhoneNumber p
  ∧ (∃ ds, formatPhoneNumber p = js "+" ++ ds ∧ Forall (λ c, is_digit c = true) ds)
  ∧ recipient_phone_number (formatPhoneNumber p) = formatPhoneNumber p.
Proof.
  destruct (formatPhoneNumber_shape p) as (ds & -> & Hd).
  destruct (plus_digits_fixed ds Hd) as [H1 H2].
  split; [done|]. split; [|done]. by exists ds.
Qed.

(** ** The store under a save *)

Lemma store_put_put d1 d2 c :
  _id d1 = _id d2 → store_put d2 (store_put d1 c) = store_put d2 c.
Proof.
  intros E. unfold store_put. rewrite <- list_fmap_compose.
  apply list_fmap_ext. intros _ e _. simpl.
  destruct (decide (_id e = _id d1)) as [E1|E1]; [|done].
  rewrite decide_True by congruence. by rewrite decide_True by congruence.
Qed.

Lemma store_put_lookup d c i e :
  c !! i = Some e →
  store_put d c !! i = Some (if decide (_id e = _id d) then d else e).
Proof. intros H. unfold store_put. by rewrite list_lookup_fmap, H. Qed.

Lemma settled_from_trans e1 e2 e3 :
  settled_from e1 e2 → settled_from e2 e3 → settled_from e1 e3.
Proof.
  unfold settled_from.
  intros [E|(Hi & Ht & Ha)] [E'|(Hi' & Ht' & Ha')]; subst; eauto.
  right. split; [congruence|done].
Qed.

Lemma settled_from_terminal e e' : terminal e → settled_from e e' → terminal e'.
Proof. unfold settled_from. intros Ht [E|(_ & Ht' & _)]; by subst. Qed.

Lemma Forall2_settled_refl c : Forall2 settled_from c c.
Proof. apply Forall_Forall2_diag, Forall_forall. intros; by left. Qed.

Lemma store_put_settles d c :
  terminal d → (1 ≤ callAttempts d)%nat → Forall2 settled_from c (store_put d c).
Proof.
  intros Ht Ha. unfold store_put.
  apply Forall2_fmap_r, Forall_Forall2_diag, Forall_forall.
  intros e _. simpl. case_decide; [right|left]; done.
Qed.

Lemma terminal_not_pending user e : terminal e → ¬ is_pending_of user e.
Proof. intros [H|H] [_ H']; congruence. Qed.

(** Settling never adds a pending entry, and removes one wherever a pending
    entry became terminal. *)
Lemma pending_count_settled user c c' :
  Forall2 settled_from c c' →
  (pending_count user c' ≤ pending_count user c)%nat ∧
  ((∃ i e e', c !! i = Some e ∧ c' !! i = Some e' ∧
      is_pending_of user e ∧ terminal e') →
   (pending_count user c' < pending_count user c)%nat).
Proof.
  unfold pending_count.
  induction 1 as [|e e' c c' Hs HF [IH1 IH2]].
  - split; [done|]. intros (i & e & e' & H & _). done.
  - assert (Himp : is_pending_of user e' → is_pending_of user e).
    { destruct Hs as [->|(_ & Ht & _)]; [done|].
      intros Hp. by apply terminal_not_pending in Hp. }
    rewrite !filter_cons. split.
    + repeat case_decide; simpl; try lia. exfalso; tauto.
    + intros (i & x & x' & Hx & Hx' & Hp & Ht).
      destruct i as [|i]; simpl in Hx, Hx'.
      * simplify_eq. rewrite (decide_True _ _ Hp).
        rewrite (decide_False _ _ (terminal_not_pending user _ Ht)). simpl. lia.
      * assert (length (filter (is_pending_of user) c')
                < length (filter (is_pending_of user) c))%nat
          by (apply IH2; eauto 10).
        repeat case_decide; simpl; try lia. exfalso; tauto.
Qed.

Lemma pending_batch_nil user c :
  pending_batch user c = [] → filter (is_pending_of user) c = [].
Proof.
  unfold pending_batch. intros H.
  apply take_nil_inv in H as [H|H]; [done|].
  apply Permutation_nil_r. rewrite <- H. symmetry. apply merge_sort_Permutation.
Qed.

Lemma pending_batch_elem user c doc :
  doc ∈ pending_batch user c → doc ∈ c ∧ is_pending_of user doc.
Proof.
  unfold pending_batch. intros H.
  apply subseteq_take in H. rewrite merge_sort_Permutation in H.
  apply list_elem_of_filter in H. tauto.
Qed.

(** ** One iteration of the for loop *)

Ltac run_body :=
  cbv [for_body try_catch try_block catch_block bind assign modify
    in_world zoom call count counters save triggerOutboundCall
    new_Date delay ret record advance set_collection set_activeProcessors
    collection activeProcessors now ops trace fst snd
    incr_processed incr_success incr_failed processedCount].

Ltac norm_docs :=
  cbv [mark_processing mark_result mark_caught
       set_status set_bolnaCallId set_errorMessage set_callAttempts
       set_lastAttemptAt set_updatedAt _id userId name phone city email notes
       status bolnaCallId errorMessage callAttempts lastAttemptAt createdAt
       updatedAt].

(** An iteration never touches the exclusion map; when it completes normally
    the stored entry has been replaced by a terminal document with one more
    attempt. *)
Lemma for_body_spec env user len doc w c r w' c' :
  for_body env user len doc (w, c) = (r, (w', c')) →
  activeProcessors w' = activeProcessors w ∧
  match r with
  | Normal _ =>
    ∃ d, collection w' = store_put d (collection w) ∧ _id d = _id doc ∧
         terminal d ∧ callAttempts d = S (callAttempts doc)
  | Throw _ => True
  end.
Proof.
  destruct w as [coll act t k tr], c as [pc sc fc].
  run_body. intros H.
  repeat (case_match; simplify_eq).
  all: split; [reflexivity|]; try exact I.
  all: eexists; (split; [first [reflexivity | apply store_put_put; reflexivity]|]).
  all: unfold terminal; simpl; (split; [done|]); (split; [tauto|lia]).
Qed.


(** What the catch block does with an exception of the try block. *)
Lemma for_body_caught env user len doc w c msg w1 c1 doc1 :
  try_block env user len (w, c, doc) = (Throw msg, (w1, c1, doc1)) →
  let written := set_updatedAt (now w1) (mark_caught msg doc1) in
  for_body env user len doc (w, c) =
  match save_outcome env (ops w1) written with
  | None => (Normal tt,
             (set_collection (store_put written (collection w1))
                (record (EvSave written) w1),
              incr_processed (incr_failed c1)))
  | Some msg' => (Throw msg', (record (EvSave written) w1, c1))
  end.
Proof.
  intros H written. unfold for_body, try_catch. rewrite H. subst written.
  destruct w1 as [coll act t k tr], c1 as [pc sc fc].
  run_body. fold (mark_caught msg doc1).
  by destruct (save_outcome env k _).
Qed.

Lemma for_body_normal_if_catch_saves env user len doc w c :
  (∀ k d, status d = failed → save_outcome env k d = None) →
  ∃ f', for_body env user len doc (w, c) = (Normal tt, f').
Proof.
  intros Hs.
  destruct (try_block env user len (w, c, doc)) as [[[]|msg] [[w1 c1] doc1]] eqn:E.
  - unfold for_body, try_catch. rewrite E. eauto.
  - rewrite (for_body_caught _ _ _ _ _ _ _ _ _ _ E). cbv zeta.
    rewrite Hs by done. eauto.
Qed.

(** ** The batch and the loop *)

Lemma for_of_active env user len docs w c r w' c' :
  for_of env user len docs (w, c) = (r, (w', c')) →
  activeProcessors w' = activeProcessors w.
Proof.
  revert w c. induction docs as [|doc docs IH]; intros w c; simpl.
  - unfold ret. by intros [= _ <- _].
  - unfold bind. destruct (for_body env user len doc (w, c)) as [r1 [w1 c1]] eqn:E.
    apply for_body_spec in E as [Ha _].
    destruct r1; [|intros [= _ <- _]; done].
    intros H. apply IH in H. congruence.
Qed.

Lemma for_of_spec env user len docs w c w' c' :
  for_of env user len docs (w, c) = (Normal tt, (w', c')) →
  Forall2 settled_from (collection w) (collection w') ∧
  ∀ doc i e, doc ∈ docs → collection w !! i = Some e → _id e = _id doc →
    ∃ e', collection w' !! i = Some e' ∧ terminal e'.
Proof.
  revert w c. induction docs as [|doc docs IH]; intros w c; simpl.
  - unfold ret. intros [= <- _]. split; [apply Forall2_settled_refl|].
    intros ??? Hin. by apply elem_of_nil in Hin.
  - unfold bind. destruct (for_body env user len doc (w, c)) as [r1 [w1 c1]] eqn:E.
    apply for_body_spec in E as [_ E].
    destruct r1 as [[]|]; [|done].
    destruct E as (d & Hc & Hid & Ht & Ha).
    intros H. apply IH in H as [HF Hall].
    assert (HF1 : Forall2 settled_from (collection w) (collection w1)).
    { rewrite Hc. apply store_put_settles; [done|lia]. }
    split.
    { eapply Forall2_trans; [|exact HF1|exact HF]. apply settled_from_trans. }
    intros doc' i e Hin Hi Hide.
    pose proof (store_put_lookup d _ _ _ Hi) as Hi1. rewrite <- Hc in Hi1.
    apply elem_of_cons in Hin as [->|Hin].
    + rewrite decide_True in Hi1 by congruence.
      destruct (Forall2_lookup_l _ _ _ _ _ HF Hi1) as (e' & He' & Hs).
      exists e'. split; [done|]. by eapply settled_from_terminal.
    + eapply Hall; [exact Hin|exact Hi1|]. case_decide; congruence.
Qed.

Lemma for_of_normal_if_catch_saves env user len docs f :
  (∀ k d, status d = failed → save_outcome env k d = None) →
  ∃ f', for_of env user len docs f = (Normal tt, f').
Proof.
  intros Hs. revert f. induction docs as [|doc docs IH]; intros [w c]; simpl.
  - unfold ret. eauto.
  - unfold bind.
    destruct (for_body_normal_if_catch_saves env user len doc w c Hs) as [f1 ->].
    apply IH.
Qed.

Lemma find_pending_run env user w (c : Counters) :
  zoom (find_pending env user) (w, c) =
  match query_outcome env (ops w) with
  | Some msg => (Throw msg, (record (EvFind user) w, c))
  | None => (Normal (pending_batch user (collection w)),
             (record (EvFind user) w, c))
  end.
Proof. unfold zoom, find_pending. simpl. by destruct (query_outcome env (ops w)). Qed.

Lemma batch_then_pause env user len docs w (c : Counters) :
  (for_of env user len docs ;> zoom (delay 1000)) (w, c) =
  match for_of env user len docs (w, c) with
  | (Normal _, (w1, c1)) =>
    (Normal tt, (advance 1000 (record (EvDelay 1000) w1), c1))
  | (Throw msg, f1) => (Throw msg, f1)
  end.
Proof.
  unfold bind.
  destruct (for_of env user len docs (w, c)) as [[[]|msg] [w1 c1]]; done.
Qed.

(** When the loop ends by itself, every entry has settled and no fetch for
    the owner can return anything. *)
Lemma while_true_spec env fuel user w c r w' c' :
  while_true env fuel user (w, c) = Some (r, (w', c')) →
  activeProcessors w' = activeProcessors w ∧
  (r = Normal tt →
   Forall2 settled_from (collection w) (collection w') ∧
   pending_count user (collection w') = 0%nat).
Proof.
  revert w c. induction fuel as [|fuel IH]; intros w c; [done|].
  cbn [while_true]. rewrite find_pending_run.
  destruct (query_outcome env (ops w)) as [msg|].
  { intros [= <- <- <-]. split; [done|]. intros [=]. }
  case_decide as Hlen.
  { intros [= <- <- <-]. split; [done|]. intros _. cbn.
    split; [apply Forall2_settled_refl|].
    unfold pending_count. apply nil_length_inv in Hlen.
    by rewrite (pending_batch_nil _ _ Hlen). }
  rewrite batch_then_pause.
  destruct (for_of _ _ _ _ _) as [[[]|msg] [w1 c1]] eqn:E.
  - intros H. apply IH in H as [Ha Hn]. cbn in Ha, Hn.
    pose proof (for_of_active _ _ _ _ _ _ _ _ _ E) as Ha1. cbn in Ha1.
    split; [congruence|].
    intros Hr. destruct (Hn Hr) as [HF Hp]. split; [|done].
    apply for_of_spec in E as [HF1 _]. cbn in HF1.
    eapply Forall2_trans; [|exact HF1|exact HF]. apply settled_from_trans.
  - intros [= <- <- <-]. split; [|intros [=]].
    by apply for_of_active in E.
Qed.

(** The loop ends: each round that does not end it settles at least one
    pending entry, so one more round than there are pending entries is
    enough. *)
Lemma while_true_total env fuel user w c :
  (pending_count user (collection w) < fuel)%nat →
  ∃ r, while_true env fuel user (w, c) = Some r.
Proof.
  revert w c. induction fuel as [|fuel IH]; intros w c Hlt; [lia|].
  cbn [while_true]. rewrite find_pending_run.
  destruct (query_outcome env (ops w)) as [msg|]; [eauto|].
  case_decide as Hlen; [eauto|].
  rewrite batch_then_pause.
  destruct (for_of _ _ _ _ _) as [[[]|msg] [w1 c1]] eqn:E; [|eauto].
  apply IH. cbn.
  apply for_of_spec in E as [HF Hall]. cbn [fst snd collection] in HF, Hall.
  assert (∃ doc, doc ∈ pending_batch user (collection w)) as [doc Hdoc].
  { destruct (pending_batch user (collection w)); [done|]. eexists; left. }
  destruct (pending_batch_elem _ _ _ Hdoc) as [Hin Hp].
  apply list_elem_of_lookup in Hin as [i Hi].
  destruct (Hall doc i doc) as (e' & He' & Ht); [done..|].
  pose proof (pending_count_settled user _ _ HF) as [_ Hlt'].
  assert (pending_count user (collection w1) < pending_count user (collection w))%nat
    by (apply Hlt'; eauto 10).
  unfold pending_count in *. lia.
Qed.

Lemma while_true_normal_if_catch_saves env fuel user w c r f' :
  (∀ k, query_outcome env k = None) →
  (∀ k d, status d = failed → save_outcome env k d = None) →
  while_true env fuel user (w, c) = Some (r, f') → r = Normal tt.
Proof.
  intros Hq Hs. revert w c. induction fuel as [|fuel IH]; intros w c; [done|].
  cbn [while_true]. rewrite find_pending_run, Hq.
  case_decide; [by intros [= <- _]|].
  rewrite batch_then_pause.
  destruct (for_of_normal_if_catch_saves env user
              (length (pending_batch user (collection w)))
              (pending_batch user (collection w))
              (record (EvFind user) w, c) Hs) as [[w1 c1] ->].
  apply IH.
Qed.

Lemma not_active_default (a : gmap jsstring bool) user :
  a !! user ≠ Some true → default false (a !! user) = false.
Proof. destruct (a !! user) as [[]|]; done. Qed.

(** ** processCallQueue *)

(** C1. With no concurrent mutation the run always ends; when it ends by
    draining the queue (a fetch returned no entry), no pending entry of the
    owner remains, and every entry of the owner that was pending when the
    run started is, at its place in the store, an entry with the same
    identifier whose status is completed or failed and whose callAttempts
    is at least 1. *)
Theorem processCallQueue_settles_pending env fuel user w :
  (pending_count user (collection w) < fuel)%nat →
  ∃ out w', processCallQueue env fuel user w = Some (out, w') ∧
    (out = Drained →
     pending_count user (collection w') = 0%nat ∧
     ∀ i e, collection w !! i = Some e → userId e = user → status e = pending →
       ∃ e', collection w' !! i = Some e' ∧ _id e' = _id e ∧
             (status e' = completed ∨ status e' = failed) ∧
             (1 ≤ callAttempts e')%nat).
Proof.
  intros Hfuel. unfold processCallQueue.
  destruct (default false (activeProcessors w !! user));
    [eexists _, _; split; [done|done]|].
  set (w0 := set_activeProcessors _ w).
  destruct (while_true_total env fuel user w0
              {| processedCount := 0; successCount := 0; failedCount := 0 |})
    as [[r [w1 c1]] E]; [done|].
  rewrite E. eexists _, _. split; [reflexivity|].
  intros Hout. destruct r as [[]|]; [|done].
  apply while_true_spec in E as [_ E]. destruct E as [HF Hp]; [done|].
  cbn in HF |- *. split; [done|].
  intros i e Hi Hu Hs.
  destruct (Forall2_lookup_l _ _ _ _ _ HF Hi) as (e' & He' & Hse).
  exists e'. split; [done|].
  destruct Hse as [->|(Hid & Ht & Ha)]; [|done].
  exfalso. unfold pending_count in Hp. apply nil_length_inv in Hp.
  assert (e ∈ filter (is_pending_of user) (collection w1)) as Hin.
  { apply list_elem_of_filter. split; [done|]. by eapply list_elem_of_lookup_2. }
  rewrite Hp in Hin. by apply elem_of_nil in Hin.
Qed.

Lemma processCallQueue_settles_pending_witness :
  (pending_count Double.owner (collection (Double.queued 3)) < 4)%nat ∧
  ∃ out w',
    processCallQueue Double.unreachable 4 Double.owner (Double.queued 3)
      = Some (out, w') ∧
    (out = Drained →
     pending_count Double.owner (collection w') = 0%nat ∧
     ∀ i e, collection (Double.queued 3) !! i = Some e →
       userId e = Double.owner → status e = pending →
       ∃ e', collection w' !! i = Some e' ∧ _id e' = _id e ∧
             (status e' = completed ∨ status e' = failed) ∧
             (1 ≤ callAttempts e')%nat).
Proof.
  assert (H : (pending_count Double.owner (collection (Double.queued 3)) < 4)%nat)
    by (vm_compute; lia).
  split; [exact H|].
  exact (processCallQueue_settles_pending Double.unreachable 4 Double.owner
           (Double.queued 3) H).
Defined.

(** C2, on seven pending entries with a store and a provider that answer at
    once: the run drains the queue in two batches (five entries, then two);
    the 2-second timer is awaited four times, all in the first batch, and
    not between the sixth and the seventh call, because [processedCount]
    counts the whole run and is compared with the length of the current
    batch. First and last call are 9 seconds apart, not 12. *)
Theorem pacing_skipped_after_first_batch :
  let run := processCallQueue Double.instant 3 Double.owner (Double.queued 7) in
  fst <$> run = Some Drained
  ∧ (λ r, call_times (trace r.2)) <$> run
    = Some [0; 2000; 4000; 6000; 8000; 9000; 9000]
  ∧ (λ r, timers (trace r.2)) <$> run
    = Some [CALL_DELAY; CALL_DELAY; CALL_DELAY; CALL_DELAY; 1000; 1000]
  ∧ 9000 - 0 < (7 - 1) * CALL_DELAY.
Proof. vm_compute. repeat split; reflexivity. Qed.

(** C3. Called while the exclusion map holds the owner, processCallQueue
    returns at once and leaves the world as it is: no request is recorded,
    no entry of the store changes, no attempt is counted. *)
Theorem processCallQueue_already_running env fuel user w :
  activeProcessors w !! user = Some true →
  processCallQueue env fuel user w = Some (AlreadyRunning, w).
Proof. intros H. unfold processCallQueue. by rewrite H. Qed.

Lemma processCallQueue_already_running_witness :
  activeProcessors (Double.busy 3) !! Double.owner = Some true ∧
  processCallQueue Double.instant 0 Double.owner (Double.busy 3)
    = Some (AlreadyRunning, Double.busy 3).
Proof.
  assert (H : activeProcessors (Double.busy 3) !! Double.owner = Some true)
    by (vm_compute; reflexivity).
  split; [exact H|].
  exact (processCallQueue_already_running Double.instant 0 Double.owner
           (Double.busy 3) H).
Defined.

(** C4. A run that passes the guard always ends, by draining the queue or
    with a run-level error, and in both cases the owner is no longer in the
    exclusion map afterwards; the marks of other owners are as before. *)
Theorem processCallQueue_releases_marker env fuel user w :
  activeProcessors w !! user ≠ Some true →
  (pending_count user (collection w) < fuel)%nat →
  ∃ out w', processCallQueue env fuel user w = Some (out, w') ∧
            (out = Drained ∨ ∃ msg, out = RunError msg) ∧
            activeProcessors w' !! user = None ∧
            activeProcessors w' = delete user (activeProcessors w).
Proof.
  intros Hact Hfuel. unfold processCallQueue.
  rewrite (not_active_default _ _ Hact).
  set (w0 := set_activeProcessors _ w).
  destruct (while_true_total env fuel user w0
              {| processedCount := 0; successCount := 0; failedCount := 0 |})
    as [[r [w1 c1]] E]; [done|].
  rewrite E. eexists _, _. split; [reflexivity|].
  apply while_true_spec in E as [Ha _]. cbn in Ha.
  split; [destruct r; eauto|]. cbn. rewrite Ha.
  split; [apply lookup_delete_eq|]. apply delete_insert_eq.
Qed.

Lemma processCallQueue_releases_marker_witness :
  ∃ out w',
    processCallQueue Double.read_only 4 Double.owner (Double.queued 3)
      = Some (out, w') ∧
    (out = Drained ∨ ∃ msg, out = RunError msg) ∧
    activeProcessors w' !! Double.owner = None ∧
    activeProcessors w' = delete Double.owner (activeProcessors (Double.queued 3)).
Proof.
  apply processCallQueue_releases_marker.
  - vm_compute. discriminate.
  - vm_compute. lia.
Defined.

(** C5. For an entry whose saves succeed and whose dispatch call resolves:
    the document is first saved with status processing, callAttempts
    incremented by exactly 1 and lastAttemptAt stamped, and this save
    precedes the provider call; then the document is saved again, with
    status completed, the call id in bolnaCallId and errorMessage cleared
    when the answer reports success with a call id, and with status failed
    and the reported error (or "Unknown error") in errorMessage otherwise.
    Each save stamps updatedAt with the time at which it happens. The
    stored entry is that last document. The pacing timer follows when the
    run's counter of processed entries is below the batch length. *)
Theorem for_body_transition env user len doc w c r :
  let doc1 := set_updatedAt (now w) (mark_processing (now w) doc) in
  let doc2 := set_updatedAt (now w + call_latency env (S (ops w)))
                (mark_result r doc1) in
  let recipient := recipient_phone_number (formatPhoneNumber (phone doc)) in
  save_outcome env (ops w) doc1 = None →
  call_outcome env (S (ops w)) recipient (name doc) user
    {| meta_city := city doc; meta_email := email doc; meta_notes := notes doc |}
    = Resolved r →
  save_outcome env (S (S (ops w))) doc2 = None →
  status doc1 = processing ∧ callAttempts doc1 = S (callAttempts doc) ∧
  lastAttemptAt doc1 = Some (now w) ∧
  (success r = true → ∀ id, callId r = Some id → id ≠ [] →
     status doc2 = completed ∧ bolnaCallId doc2 = Some id ∧
     errorMessage doc2 = None) ∧
  (success r && truthy (default [] (callId r)) = false →
     status doc2 = failed ∧
     errorMessage doc2 = Some (or_else (error r) (js "Unknown error"))) ∧
  (∀ reason, error r = Some reason → reason ≠ [] →
     or_else (error r) (js "Unknown error") = reason) ∧
  ∃ w' c',
    for_body env user len doc (w, c) = (Normal tt, (w', c')) ∧
    trace w' = trace w ++ [EvSave doc1; EvCall (now w) recipient (name doc) user;
                           EvSave doc2] ++
               (if decide (S (processedCount c) < len)%nat
                then [EvDelay CALL_DELAY] else []) ∧
    processedCount c' = S (processedCount c) ∧
    collection w' = store_put doc2 (store_put doc1 (collection w)) ∧
    ∀ i, collection w !! i = Some doc → collection w' !! i = Some doc2.
Proof.
  intros doc1 doc2 recipient H1 H2 H3.
  split; [done|]. split; [simpl; lia|]. split; [done|].
  split.
  { intros Hs id Hid Hne. subst doc2. unfold mark_result. rewrite Hs, Hid.
    destruct id; [done|]. done. }
  split.
  { intros Hs. subst doc2. unfold mark_result. by rewrite Hs. }
  split.
  { intros reason -> Hne. by destruct reason. }
  assert (Hput : ∀ i, collection w !! i = Some doc →
            store_put doc2 (store_put doc1 (collection w)) !! i = Some doc2).
  { intros i Hi.
    rewrite store_put_put by (subst doc2; unfold mark_result; by case_match).
    rewrite (store_put_lookup _ _ _ _ Hi). rewrite decide_True; [done|].
    subst doc2; unfold mark_result; by case_match. }
  subst doc1 doc2 recipient.
  destruct w as [coll act t k tr], c as [pc sc fc].
  revert H1 H2 H3 Hput. run_body. norm_docs. intros H1 H2 H3 Hput.
  rewrite H1, H2.
  destruct (success r && truthy (default [] (callId r))); rewrite H3;
    destruct (decide (S pc < len)%nat);
    eexists _, _; (split; [reflexivity|]);
    rewrite <- ?app_assoc; simpl; eauto.
Qed.

Lemma for_body_transition_witness :
  let doc := Double.entry 1 pending in
  let w := Double.queued 2 in
  let doc1 := set_updatedAt (now w) (mark_processing (now w) doc) in
  let doc2 := set_updatedAt (now w + call_latency Double.instant (S (ops w)))
                (mark_result Double.answer_ok doc1) in
  status doc2 = completed ∧ bolnaCallId doc2 = Some (js "exec-1") ∧
  errorMessage doc2 = None ∧
  ∃ w' c',
    for_body Double.instant Double.owner 2 doc (w, Double.zero)
      = (Normal tt, (w', c')) ∧
    trace w' = trace w ++
      [EvSave doc1;
       EvCall (now w) (recipient_phone_number (formatPhoneNumber (phone doc)))
         (name doc) Double.owner;
       EvSave doc2] ++
      (if decide (S (processedCount Double.zero) < 2)%nat
       then [EvDelay CALL_DELAY] else []) ∧
    processedCount c' = S (processedCount Double.zero) ∧
    collection w' = store_put doc2 (store_put doc1 (collection w)) ∧
    ∀ i, collection w !! i = Some doc → collection w' !! i = Some doc2.
Proof.
  intros doc w doc1 doc2.
  destruct (for_body_transition Double.instant Double.owner 2 doc w Double.zero
              Double.answer_ok eq_refl eq_refl eq_refl)
    as (_ & _ & _ & Hok & _ & _ & Hrun).
  destruct (Hok eq_refl (js "exec-1") eq_refl) as (H1 & H2 & H3); [discriminate|].
  split; [exact H1|]. split; [exact H2|]. split; [exact H3|]. exact Hrun.
Defined.




(** ** The retry and upload routes *)

Lemma modifiedCount_failed user t c :
  (updateMany_status (λ d, userId d = user ∧ status d = failed) pending t c).2
  = length (filter (failed_of user) c).
Proof.
  unfold updateMany_status. cbn [snd]. f_equal.
  apply list_filter_iff. intros d. unfold failed_of. split; [tauto|].
  intros [H1 H2]. split; [done|]. left. congruence.
Qed.

(** C7 as stated fails in two ways. When the owner has no failed entry the
    route answers 404 "No failed calls found" and reports no retriedCount.
    And status is not the only field of a reset entry that changes: the
    schema's timestamps make the update rewrite updatedAt as well. *)
Lemma retry_all_none_failed_404 :
  (retry_all Double.instant Double.owner
     (Double.stored [Double.entry 2 completed])).1
  = Normal (RetryNotFound (js "No failed calls found"), None)
  ∧ updatedAt (Double.entry 1 failed) = 1
  ∧ updatedAt <$> collection
      (retry_all Double.instant Double.owner
         (advance 5000 (Double.stored [Double.entry 1 failed]))).2 = [5000].
Proof. vm_compute. repeat split; reflexivity. Qed.

(** C7, amended. When the store answers, retry-all sets status to pending on
    exactly the owner's entries whose status is failed, stamps their
    updatedAt with the time of the update and changes no other field of
    them; every other entry is left as it is. When at least one entry was
    reset the response carries retriedCount, the number of entries reset;
    when none was, the response is 404 "No failed calls found". *)
Theorem retry_all_resets_failed env user w :
  query_outcome env (ops w) = None →
  let n := length (filter (failed_of user) (collection w)) in
  ∃ trig w',
    retry_all env user w =
      (Normal (if decide (n = 0)%nat
               then RetryNotFound (js "No failed calls found")
               else RetryOk n, trig), w') ∧
    length (collection w') = length (collection w) ∧
    ∀ i e, collection w !! i = Some e →
      ∃ e', collection w' !! i = Some e' ∧
        if decide (failed_of user e)
        then status e' = pending ∧ updatedAt e' = now w ∧
             same_but_status_updatedAt e e'
        else e' = e.
Proof.
  intros Hq n. unfold retry_all, try_catch, bind, updateMany. rewrite Hq.
  rewrite modifiedCount_failed. fold n.
  assert (Hcoll : ∀ X, collection (set_collection
            (updateMany_status (λ d, userId d = user ∧ status d = failed) pending
               (now w) (collection w)).1 X) =
          (λ d, if decide (failed_of user d)
                then set_updatedAt (now w) (set_status pending d) else d)
            <$> collection w).
  { intros X. cbn. apply list_fmap_ext. intros _ d _. unfold failed_of.
    destruct (decide (userId d = user ∧ status d = failed)); done. }
  assert (Hres : ∀ w', collection w' =
            (λ d, if decide (failed_of user d)
                  then set_updatedAt (now w) (set_status pending d) else d)
              <$> collection w →
          length (collection w') = length (collection w) ∧
          ∀ i e, collection w !! i = Some e →
            ∃ e', collection w' !! i = Some e' ∧
              if decide (failed_of user e)
              then status e' = pending ∧ updatedAt e' = now w ∧
                   same_but_status_updatedAt e e'
              else e' = e).
  { intros w' ->. split; [by rewrite length_fmap|].
    intros i e Hi. rewrite list_lookup_fmap, Hi. eexists; split; [reflexivity|].
    case_decide; [|done]. split; [done|]. split; [done|]. by repeat split. }
  destruct (decide (n = 0)%nat); unfold ret; eexists _, _;
    (split; [reflexivity|]); apply Hres, Hcoll.
Qed.

(** The example of the claim: id1 and id3 failed, id2 completed. *)
Lemma retry_all_resets_failed_witness :
  let w := Double.stored [Double.entry 1 failed; Double.entry 2 completed;
                          Double.entry 3 failed] in
  ∃ trig w',
    retry_all Double.instant Double.owner w = (Normal (RetryOk 2, trig), w') ∧
    length (collection w') = 3%nat ∧
    ∀ i e, collection w !! i = Some e →
      ∃ e', collection w' !! i = Some e' ∧
        if decide (failed_of Double.owner e)
        then status e' = pending ∧ updatedAt e' = now w ∧
             same_but_status_updatedAt e e'
        else e' = e.
Proof.
  intros w.
  exact (retry_all_resets_failed Double.instant Double.owner w eq_refl).
Defined.

Lemma findDuplicates_spec contacts existing p :
  p ∈ findDuplicates contacts existing ↔
  (∃ c, c ∈ contacts ∧ pc_phone c = p) ∧ (∃ e, e ∈ existing ∧ phone e = p).
Proof.
  unfold findDuplicates. rewrite list_elem_of_fmap.
  setoid_rewrite list_elem_of_filter. setoid_rewrite elem_of_list_to_set.
  setoid_rewrite list_elem_of_fmap. split.
  - intros (c & -> & (e & He & Hin) & Hc). split; eauto.
  - intros [(c & Hc & <-) (e & He & Hp)]. exists c.
    split; [done|]. split; [|done]. eauto.
Qed.

Lemma new_documents_valid lc first t user contacts :
  user ≠ [] →
  (∀ c, c ∈ contacts → trim (pc_name c) ≠ [] ∧ trim (pc_phone c) ≠ []) →
  forallb valid_document
    (imap (λ i, new_document lc (first + i)%nat t user) contacts) = true.
Proof.
  intros Hu. revert first. induction contacts as [|c cs IH]; intros first Hc; [done|].
  cbn [imap forallb]. apply andb_true_iff. split.
  - destruct (Hc c) as [Hn Hp]; [left|].
    unfold valid_document, new_document. cbn.
    destruct user; [done|]. destruct (trim (pc_name c)); [done|].
    destruct (trim (pc_phone c)); done.
  - rewrite (imap_ext _ (λ i, new_document lc (S first + i)%nat t user)).
    + apply IH. intros c' Hc'. apply Hc. by right.
    + intros i x _. simpl. f_equal. lia.
Qed.

Lemma new_documents_spec lc first t user contacts :
  Forall2 (λ c d, userId d = user ∧ status d = pending ∧ callAttempts d = 0%nat ∧
                  name d = trim (pc_name c) ∧ phone d = trim (pc_phone c))
    contacts (imap (λ i, new_document lc (first + i)%nat t user) contacts).
Proof.
  revert first. induction contacts as [|c cs IH]; intros first; [constructor|].
  cbn [imap]. constructor; [done|].
  rewrite (imap_ext _ (λ i, new_document lc (S first + i)%nat t user)); [apply IH|].
  intros i x _. simpl. f_equal. lia.
Qed.

(** C8 as stated fails for a request that does not carry the form field
    checkDuplicates: the phone of the uploaded contact is already stored for
    the owner, the row is inserted, and the duplicates list of the response
    is empty. *)
Lemma upload_duplicates_unchecked_by_default :
  let before := Double.stored [Double.entry 1 completed] in
  let r := upload Double.instant (λ s, s) Double.one_contact
             (Double.upload_request None) before in
  phone <$> collection before = [js "9876543210"]
  ∧ duplicates_of r.1 = Some []
  ∧ phone <$> collection r.2 = [js "9876543210"; js "9876543210"]
  ∧ status <$> collection r.2 = [completed; pending].
Proof. vm_compute. repeat split; reflexivity. Qed.

(** C8, amended. For an accepted upload (file and owner present, contacts
    extracted, required fields not blank, store answering), every extracted
    contact is inserted as a new pending entry of the owner with
    callAttempts 0, whether or not its phone is already stored, so the
    collection grows by the number of contacts. The duplicates list of the
    response holds the uploaded phones that an entry of the owner already
    carries when the request has checkDuplicates = "true" (as the upload form
    sends it), and is empty otherwise. *)
Theorem upload_reports_duplicates_and_inserts env lc parse req w user path :
  up_userId req = Some user → user ≠ [] →
  up_file req = Some path → path ≠ [] →
  pr_success (parse path) = true → pr_contacts (parse path) ≠ [] →
  (∀ c, c ∈ pr_contacts (parse path) →
        trim (pc_name c) ≠ [] ∧ trim (pc_phone c) ≠ []) →
  (∀ k, query_outcome env k = None) →
  ∃ summary listed dups trig w' docs,
    upload env lc parse req w =
      (Normal (UploadCreated summary listed (pr_errors (parse path)) dups, trig),
       w') ∧
    collection w' = collection w ++ docs ∧
    Forall2 (λ c d, userId d = user ∧ status d = pending ∧
                    callAttempts d = 0%nat ∧
                    name d = trim (pc_name c) ∧ phone d = trim (pc_phone c))
      (pr_contacts (parse path)) docs ∧
    length (collection w') =
      (length (collection w) + length (pr_contacts (parse path)))%nat ∧
    savedContacts summary = length (pr_contacts (parse path)) ∧
    duplicatesFound summary = length dups ∧
    if decide (up_checkDuplicates req = Some (js "true"))
    then ∀ p, p ∈ dups ↔
           (∃ c, c ∈ pr_contacts (parse path) ∧ pc_phone c = p) ∧
           (∃ e, e ∈ collection w ∧ userId e = user ∧ phone e = p)
    else dups = [].
Proof.
  intros Hu Hun Hf Hfn Hps Hpc Hval Hq.
  unfold upload, try_catch. cbv zeta. rewrite Hu, Hf. cbn [default from_option id].
  destruct user as [|u0 user']; [done|]. destruct path as [|p0 path']; [done|].
  cbn [truthy negb]. rewrite Hps. cbn [negb orb].
  rewrite bool_decide_eq_false_2
    by (by destruct (pr_contacts (parse (p0 :: path')))).
  set (user := u0 :: user') in *. set (path := p0 :: path') in *.
  set (contacts := pr_contacts (parse path)) in *.
  set (first := S (max_list (_id <$> collection w))).
  pose proof (new_documents_valid lc first (now w) user contacts Hun Hval)
    as Hvalid.
  pose proof (new_documents_spec lc first (now w) user contacts) as Hdocs.
  assert (Hins : ∀ w1, collection w1 = collection w → now w1 = now w →
            ∃ w2, insertMany env lc user contacts w1 =
              (Normal (imap (λ i, new_document lc (first + i)%nat (now w) user)
                         contacts), w2) ∧
              collection w2 = collection w ++
                 imap (λ i, new_document lc (first + i)%nat (now w) user)
                   contacts).
  { intros w1 Hc Hn. unfold insertMany. cbv beta zeta.
    rewrite Hn. rewrite Hc. fold first. rewrite Hvalid, Hq.
    eexists. split; reflexivity. }
  unfold bind. case_bool_decide as Hcd.
  - unfold find_phones. rewrite Hq. unfold ret.
    destruct (Hins (record (EvFindPhones user (pc_phone <$> contacts)) w))
      as (w2 & -> & Hc2); [done..|].
    eexists _, _, _, _, _, _. split; [reflexivity|].
    split; [exact Hc2|]. split; [exact Hdocs|].
    split. { rewrite Hc2, length_app, length_imap. done. }
    split. { cbn. by rewrite length_imap. }
    split; [done|].
    rewrite decide_True by done. intros p.
    rewrite findDuplicates_spec. setoid_rewrite list_elem_of_filter.
    split.
    + intros [Hc (e & [[He1 He2] He3] & He4)]. split; [done|]. eauto.
    + intros [Hc (e & He1 & He2 & He3)]. split; [done|].
      exists e. split; [|done]. split; [|done]. split; [done|].
      destruct Hc as (c & Hc & Hcp). apply list_elem_of_fmap.
      exists c. split; [congruence|done].
  - unfold ret.
    destruct (Hins w) as (w2 & -> & Hc2); [done..|].
    eexists _, _, _, _, _, _. split; [reflexivity|].
    split; [exact Hc2|]. split; [exact Hdocs|].
    split. { rewrite Hc2, length_app, length_imap. done. }
    split. { cbn. by rewrite length_imap. }
    split; [done|].
    rewrite decide_False by done. done.
Qed.

Lemma upload_reports_duplicates_and_inserts_witness :
  let before := Double.stored [Double.entry 1 completed] in
  let req := Double.upload_request (Some (js "true")) in
  ∃ summary listed dups trig w' docs,
    upload Double.instant (λ s, s) Double.one_contact req before =
      (Normal (UploadCreated summary listed [] dups, trig), w') ∧
    collection w' = collection before ++ docs ∧
    length (collection w') = 2%nat ∧
    duplicatesFound summary = length dups ∧
    (js "9876543210" ∈ dups).
Proof.
  intros before req.
  destruct (upload_reports_duplicates_and_inserts Double.instant (λ s, s)
              Double.one_contact req before Double.owner
              (js "uploads/contacts.csv"))
    as (summary & listed & dups & trig & w' & docs & Hup & Hc & _ & Hlen & _ & Hn & Hd).
  - reflexivity.
  - discriminate.
  - reflexivity.
  - discriminate.
  - reflexivity.
  - discriminate.
  - intros c Hc. apply list_elem_of_singleton in Hc as ->. split; discriminate.
  - intros k. reflexivity.
  - exists summary, listed, dups, trig, w', docs.
    split; [exact Hup|]. split; [exact Hc|]. split; [exact Hlen|].
    split; [exact Hn|].
    rewrite decide_True in Hd by reflexivity. apply Hd. split.
    + eexists. split; [left|reflexivity].
    + exists (Double.entry 1 completed). split; [left|]. split; reflexivity.
Defined.

(** * Further properties *)

(** ** Phone validation *)

Lemma is_digit_spec c : is_digit c = true ↔ 48 ≤ c ≤ 57.
Proof.
  unfold is_digit. rewrite andb_true_iff, !N.leb_le. done.
Qed.

Lemma forallb_is_digit ds :
  Forall (λ c, is_digit c = true) ds → forallb is_digit ds = true.
Proof. induction 1 as [|c ds Hc _ IH]; [done|]. simpl. by rewrite Hc, IH. Qed.

Lemma matches_phone_pattern_digits ds :
  Forall (λ c, is_digit c = true) ds →
  matches_phone_pattern ds = true ↔
  (10 ≤ length ds ≤ 15)%nat ∧ head ds ≠ Some 48.
Proof.
  intros Hd. destruct Hd as [|c ds Hc Hds]; cbn [matches_phone_pattern length head].
  { split; [done|]. intros [? _]. lia. }
  rewrite (forallb_is_digit _ Hds).
  apply is_digit_spec in Hc.
  rewrite !andb_true_iff, !N.leb_le, !Nat.leb_le. split.
  - intros [[[[H1 H2] _] H3] H4]. split; [lia|]. intros [= ->]. lia.
  - intros [H1 H2]. repeat split; try lia.
    assert (c ≠ 48) by (intros ->; done). lia.
Qed.

(** What [validatePhoneNumber] accepts, in terms of the digits of the input. *)
Lemma validatePhoneNumber_true_iff phone :
  validatePhoneNumber phone = true ↔
  (10 ≤ length (strip_non_digits phone) ≤ 15)%nat ∧
  head (strip_non_digits phone) ≠ Some 48.
Proof.
  unfold validatePhoneNumber.
  pose proof (matches_phone_pattern_digits _ (strip_non_digits_digits phone)) as Hm.
  destruct (_ || _) eqn:Hlen.
  - split; [done|]. intros [Hl _].
    apply orb_true_iff in Hlen as [H|H]; apply Nat.ltb_lt in H; lia.
  - exact Hm.
Qed.

Lemma strip_non_digits_plus ds :
  Forall (λ c, is_digit c = true) ds → strip_non_digits (43 :: ds) = ds.
Proof.
  intros Hd. change (strip_non_digits (43 :: ds)) with (strip_non_digits ds).
  by apply strip_non_digits_id.
Qed.

(** X1. validatePhoneNumber looks at the digits only: it accepts a string
    exactly when it contains between 10 and 15 digits and the first digit is
    not 0. Whatever else the string contains does not matter, so a string
    and its digits are validated alike. *)
Theorem validatePhoneNumber_digits_only (phone : jsstring) :
  (validatePhoneNumber phone = true ↔
     (10 ≤ length (strip_non_digits phone) ≤ 15)%nat ∧
     head (strip_non_digits phone) ≠ Some 48)
  ∧ validatePhoneNumber (strip_non_digits phone) = validatePhoneNumber phone.
Proof.
  split; [apply validatePhoneNumber_true_iff|].
  pose proof (validatePhoneNumber_true_iff phone) as H1.
  pose proof (validatePhoneNumber_true_iff (strip_non_digits phone)) as H2.
  rewrite (strip_non_digits_id _ (strip_non_digits_digits phone)) in H2.
  destruct (validatePhoneNumber phone), (validatePhoneNumber (strip_non_digits phone));
    try done.
  - assert (false = true) by (apply H2, H1; done). done.
  - assert (false = true) by (apply H1, H2; done). done.
Qed.

(** X2. A phone number that passed validatePhoneNumber is formatted into a
    plus sign followed by 10 to 15 digits, the first of which is not 0, and
    the formatted number passes validatePhoneNumber again. *)
Theorem formatPhoneNumber_of_valid (phone : jsstring) :
  validatePhoneNumber phone = true →
  (∃ ds, formatPhoneNumber phone = js "+" ++ ds ∧
         Forall (λ c, is_digit c = true) ds ∧
         (10 ≤ length ds ≤ 15)%nat ∧ head ds ≠ Some 48)
  ∧ validatePhoneNumber (formatPhoneNumber phone) = true.
Proof.
  intros Hv. apply validatePhoneNumber_true_iff in Hv as [Hl Hh].
  pose proof (strip_non_digits_digits phone) as Hd.
  assert (∃ ds, formatPhoneNumber phone = 43 :: ds ∧
                Forall (λ c, is_digit c = true) ds ∧
                (10 ≤ length ds ≤ 15)%nat ∧ head ds ≠ Some 48)
    as (ds & Hf & Hds & Hlen & Hhd).
  { unfold formatPhoneNumber. rewrite js_plus91, js_plus.
    destruct (negb _); [destruct (N.eqb_spec (N.of_nat (length (strip_non_digits phone))) 10)|].
    - exists (57 :: 49 :: strip_non_digits phone). split; [reflexivity|].
      split; [by do 2 (constructor; [reflexivity|])|].
      split; [simpl; lia|]. simpl. discriminate.
    - exists (strip_non_digits phone). done.
    - exists (strip_non_digits phone). done. }
  split.
  - exists ds. by rewrite js_plus.
  - rewrite Hf. apply validatePhoneNumber_true_iff.
    by rewrite strip_non_digits_plus.
Qed.

Lemma formatPhoneNumber_of_valid_witness :
  validatePhoneNumber (js "98765 43210") = true ∧
  validatePhoneNumber (formatPhoneNumber (js "98765 43210")) = true.
Proof.
  assert (H : validatePhoneNumber (js "98765 43210") = true) by reflexivity.
  split; [exact H|].
  exact (proj2 (formatPhoneNumber_of_valid (js "98765 43210") H)).
Defined.

Lemma dropWhile_suffix p s :
  ∃ pre, s = pre ++ dropWhile p s ∧ Forall (λ c, p c = true) pre.
Proof.
  induction s as [|c s (pre & Hs & Hp)]; [by exists []|]. simpl.
  destruct (p c) eqn:Hc.
  - exists (c :: pre). split; [by rewrite <- app_comm_cons, <- Hs|].
    by constructor.
  - by exists [].
Qed.

Lemma dropWhile_head p s c r : dropWhile p s = c :: r → p c = false.
Proof.
  induction s as [|x s IH]; [done|]. simpl.
  destruct (p x) eqn:Hx; [done|]. by intros [= <- _].
Qed.

Lemma filter_dropWhile (P : N → Prop) `{!∀ c, Decision (P c)} p s :
  (∀ c, p c = true → ¬ P c) → filter P (dropWhile p s) = filter P s.
Proof.
  intros HP. destruct (dropWhile_suffix p s) as (pre & Hs & Hpre).
  rewrite Hs at 2. rewrite filter_app.
  assert (filter P pre = []) as ->; [|done].
  clear Hs. induction Hpre as [|c pre Hc _ IH]; [done|].
  rewrite filter_cons_False by (by apply HP). done.
Qed.

(** Trimming does not change what a filter keeps, when the filter keeps no
    white space. *)
Lemma filter_trim (P : N → Prop) `{!∀ c, Decision (P c)} s :
  (∀ c, is_space c = true → ¬ P c) → filter P (trim s) = filter P s.
Proof.
  intros HP. unfold trim.
  rewrite filter_reverse, (filter_dropWhile P) by done.
  rewrite filter_reverse, reverse_involutive.
  by apply filter_dropWhile.
Qed.

Lemma startsWith_plus_false s :
  Forall (λ c, c ≠ 43) s → startsWith s (js "+") = false.
Proof.
  rewrite js_plus. destruct 1 as [|c s Hc _]; [done|].
  cbn [startsWith]. apply andb_false_iff. left. by apply N.eqb_neq.
Qed.

(** X3. On a string made of digits, white space and dashes only, the
    normalization inside triggerOutboundCall and formatPhoneNumber give the
    same number. *)
Theorem normalizations_agree_on_plain_numbers (phone : jsstring) :
  Forall (λ c, is_digit c = true ∨ is_space c = true ∨ c = 45) phone →
  recipient_phone_number phone = formatPhoneNumber phone.
Proof.
  intros Hall.
  assert (Hfilter : filter (λ c, ¬ (is_space c || (c =? 45))) (trim phone)
                    = strip_non_digits phone).
  { rewrite filter_trim by (intros c Hc; rewrite Hc; simpl; tauto).
    unfold strip_non_digits.
    induction Hall as [|c phone Hc _ IH]; [done|].
    destruct Hc as [Hc|Hc].
    - rewrite (filter_cons_True (λ c, ¬ (is_space c || (c =? 45))))
        by (rewrite (digit_not_space c Hc), (digit_not_dash c Hc); simpl; tauto).
      rewrite (filter_cons_True (λ c, is_digit c)) by (by rewrite Hc).
      by rewrite IH.
    - assert (is_digit c = false) as Hd.
      { destruct Hc as [Hc| ->]; [|done].
        destruct (is_digit c) eqn:E; [|done].
        apply digit_not_space in E. congruence. }
      rewrite (filter_cons_False (λ c, ¬ (is_space c || (c =? 45)))).
      2:{ intros Hn. apply Hn. destruct Hc as [Hc | ->].
          - rewrite Hc. exact I.
          - rewrite orb_true_r. exact I. }
      rewrite (filter_cons_False (λ c, is_digit c)) by (simpl; rewrite Hd; tauto).
      exact IH. }
  unfold recipient_phone_number, formatPhoneNumber. cbv zeta. rewrite Hfilter.
  rewrite (startsWith_plus_false (strip_non_digits phone)).
  2:{ eapply Forall_impl; [apply strip_non_digits_digits|].
      intros c Hc ->. done. }
  rewrite (startsWith_plus_false phone).
  2:{ eapply Forall_impl; [exact Hall|].
      intros c [Hc|[Hc|Hc]] ->; done. }
  done.
Qed.

Lemma normalizations_agree_on_plain_numbers_witness :
  recipient_phone_number (js " 98765-43210 ") = formatPhoneNumber (js " 98765-43210 ").
Proof.
  apply normalizations_agree_on_plain_numbers.
  repeat (constructor; [vm_compute; tauto|]). constructor.
Defined.

(** ** triggerOutboundCall *)

Ltac nonempty :=
  let E := fresh in
  intros E; apply (f_equal length) in E;
  rewrite ?length_app in E; unfold js in E; rewrite ?length_fmap in E;
  simpl in E; lia.

Lemma truthy_true_iff s : truthy s = true ↔ s ≠ [].
Proof. by destruct s. Qed.

Lemma or_else_truthy x dflt :
  truthy (default [] x) = true → or_else x dflt = default [] x.
Proof. destruct x as [s|]; [|done]. simpl. by intros ->. Qed.

Lemma errorMessage_of_nonempty e : Bolna.errorMessage_of e ≠ [].
Proof.
  destruct e as [msg|status m1 m2 body| |msg]; simpl; try nonempty.
  destruct (truthy _); nonempty.
Qed.

(** How the guards of the function read the environment. *)
Lemma configured_guards penv :
  configured penv ↔
  truthy (default [] (Bolna.BOLNA_API_KEY penv)) = true ∧
  (negb (truthy (or_else (Bolna.BOLNA_AGENT_ID penv) (js "default-agent-id")))
   || bool_decide (or_else (Bolna.BOLNA_AGENT_ID penv) (js "default-agent-id")
                   = js "your-bolna-agent-id-here")
   || bool_decide (or_else (Bolna.BOLNA_AGENT_ID penv) (js "default-agent-id")
                   = js "default-agent-id")) = false.
Proof.
  unfold configured. destruct penv as [key agent mock]. cbn [Bolna.BOLNA_API_KEY Bolna.BOLNA_AGENT_ID].
  split.
  - intros [(k & -> & Hk) (a & -> & Ha1 & Ha2 & Ha3)].
    split; [by destruct k|].
    destruct a as [|a0 a]; [done|]. cbn [or_else truthy negb orb].
    rewrite !bool_decide_eq_false_2; done.
  - intros [Hk Ha]. split.
    + destruct key as [k|]; [|done]. exists k. split; [done|]. by destruct k.
    + destruct agent as [[|a0 a]|]; [done| |done].
      cbn [or_else truthy negb orb] in Ha.
      apply orb_false_iff in Ha as [Ha1 Ha2].
      apply bool_decide_eq_false in Ha1, Ha2.
      exists (a0 :: a). done.
Qed.

(** X4. triggerOutboundCall always resolves to a response that either
    reports success and carries a non-empty call id, or reports failure and
    carries a non-empty error message. For such a response the processor's
    test [result.success && result.callId] is just [result.success], and its
    fallback text for a missing error is never the one stored. *)
Theorem triggerOutboundCall_response_shape penv post date_now random
    phone contactName userId meta :
  let r := (Bolna.triggerOutboundCall penv post date_now random
              phone contactName userId meta).1 in
  (success r = true →
     ∃ id, callId r = Some id ∧ id ≠ [] ∧ error r = None) ∧
  (success r = false →
     callId r = None ∧
     ∃ reason, error r = Some reason ∧ reason ≠ [] ∧
               ∀ fallback, or_else (error r) fallback = reason) ∧
  success r && truthy (default [] (callId r)) = success r.
Proof.
  assert (Hfail : ∀ reason, reason ≠ [] →
            let r := {| success := false; callId := None; message := None;
                        error := Some reason |} in
            (success r = true →
               ∃ id, callId r = Some id ∧ id ≠ [] ∧ error r = None) ∧
            (success r = false →
               callId r = None ∧
               ∃ reason, error r = Some reason ∧ reason ≠ [] ∧
                         ∀ fallback, or_else (error r) fallback = reason) ∧
            success r && truthy (default [] (callId r)) = success r).
  { intros reason Hne. cbn. split; [done|]. split; [|done]. intros _.
    split; [done|]. exists reason. split; [done|]. split; [done|].
    intros fallback. by destruct reason. }
  assert (Hok : ∀ id msg, id ≠ [] →
            let r := {| success := true; callId := Some id; message := msg;
                        error := None |} in
            (success r = true →
               ∃ id, callId r = Some id ∧ id ≠ [] ∧ error r = None) ∧
            (success r = false →
               callId r = None ∧
               ∃ reason, error r = Some reason ∧ reason ≠ [] ∧
                         ∀ fallback, or_else (error r) fallback = reason) ∧
            success r && truthy (default [] (callId r)) = success r).
  { intros id msg Hne. cbn. split; [eauto|]. split; [done|]. by destruct id. }
  unfold Bolna.triggerOutboundCall.
  destruct (negb (truthy _)).
  { apply Hfail, errorMessage_of_nonempty. }
  destruct (_ || _).
  { apply Hfail, errorMessage_of_nonempty. }
  case_bool_decide.
  { apply Hok. nonempty. }
  destruct (post _) as [eid cid body|e]; cbn [fst].
  - destruct (truthy (or_else eid (default [] cid))) eqn:Ht.
    + apply Hok. by apply truthy_true_iff.
    + apply Hfail. nonempty.
  - apply Hfail, errorMessage_of_nonempty.
Qed.



(** X6. With a usable configuration, a request goes out exactly when mock
    mode is off. The request carries the API key as bearer token, the agent
    id, the owner and contact name, and as recipient the phone normalized by
    the function itself. In mock mode the call succeeds without a request,
    with an id that starts with "mock-call-". *)
Theorem triggerOutboundCall_request penv post date_now random
    phone contactName userId meta :
  configured penv →
  let res := Bolna.triggerOutboundCall penv post date_now random
               phone contactName userId meta in
  (Bolna.MOCK_BOLNA_CALLS penv = Some (js "true") →
     res.2 = None ∧ success res.1 = true ∧
     callId res.1 = Some (js "mock-call-" ++ decimal date_now ++ js "-" ++ random)) ∧
  (Bolna.MOCK_BOLNA_CALLS penv ≠ Some (js "true") →
     ∃ request, res.2 = Some request ∧
       Some (Bolna.bearer request) = Bolna.BOLNA_API_KEY penv ∧
       Some (Bolna.agent_id request) = Bolna.BOLNA_AGENT_ID penv ∧
       Bolna.recipient request = recipient_phone_number phone ∧
       Bolna.uploadedBy request = userId ∧
       Bolna.contactName request = contactName ∧
       Bolna.additional request = meta).
Proof.
  intros Hc res. subst res.
  pose proof (proj1 (configured_guards penv) Hc) as [Hk Ha].
  destruct Hc as [(key & Hkey & _) (agent & Hagent & Hne & _)].
  unfold Bolna.triggerOutboundCall. rewrite Hk, Ha. cbn [negb].
  split.
  - intros Hm. rewrite bool_decide_eq_true_2 by done. done.
  - intros Hm. rewrite bool_decide_eq_false_2 by done.
    match goal with |- context [post ?r] => set (req := r) end.
    exists req. split.
    { destruct (post req) as [eid cid body|e];
        [destruct (truthy (or_else eid (default [] cid)))|]; done. }
    subst req. cbn. rewrite Hkey, Hagent. cbn. destruct agent; done.
Qed.

Lemma triggerOutboundCall_request_witness :
  let penv := {| Bolna.BOLNA_API_KEY := Some (js "bn-key");
                 Bolna.BOLNA_AGENT_ID := Some (js "agent-7");
                 Bolna.MOCK_BOLNA_CALLS := None |} in
  ∃ request,
    (Bolna.triggerOutboundCall penv
       (λ _, Bolna.Fulfilled (Some (js "exec-1")) None (js "{}"))
       0 (js "k3x9") (js "98765 43210") (js "Asha") Double.owner
       {| meta_city := None; meta_email := None; meta_notes := None |}).2
      = Some request ∧
    Bolna.recipient request = js "+919876543210".
Proof.
  intros penv.
  assert (Hc : configured penv).
  { split; [exists (js "bn-key")|exists (js "agent-7")]; repeat split; discriminate. }
  destruct (proj2 (triggerOutboundCall_request penv
              (λ _, Bolna.Fulfilled (Some (js "exec-1")) None (js "{}"))
              0 (js "k3x9") (js "98765 43210") (js "Asha") Double.owner
              {| meta_city := None; meta_email := None; meta_notes := None |} Hc))
    as (request & Hs & _ & _ & Hr & _).
  - discriminate.
  - exists request. split; [exact Hs|]. rewrite Hr. reflexivity.
Defined.

(** X7. When a request was answered, the call counts as initiated exactly
    when the answer carries a non-empty execution_id or call_id; the call id
    returned is the execution_id when there is one and the call_id
    otherwise. Any other answer, and any error of the request, gives a
    failure. *)
Theorem triggerOutboundCall_success_criterion penv post date_now random
    phone contactName userId meta request :
  let res := Bolna.triggerOutboundCall penv post date_now random
               phone contactName userId meta in
  res.2 = Some request →
  (success res.1 = true ↔
     ∃ execution_id call_id body,
       post request = Bolna.Fulfilled execution_id call_id body ∧
       (truthy (default [] execution_id) = true
        ∨ truthy (default [] call_id) = true)) ∧
  (∀ execution_id call_id body,
     post request = Bolna.Fulfilled execution_id call_id body →
     truthy (default [] execution_id) = true →
     callId res.1 = execution_id) ∧
  (∀ execution_id call_id body,
     post request = Bolna.Fulfilled execution_id call_id body →
     truthy (default [] execution_id) = false →
     truthy (default [] call_id) = true →
     callId res.1 = call_id).
Proof.
  intros res. subst res. unfold Bolna.triggerOutboundCall.
  destruct (negb (truthy _)); [done|].
  destruct (_ || _); [done|].
  case_bool_decide; [done|].
  match goal with |- context [post ?r] => set (req := r) end.
  assert (Hor : ∀ eid cid : option jsstring,
            truthy (or_else eid (default [] cid)) = true ↔
            truthy (default [] eid) = true ∨ truthy (default [] cid) = true).
  { intros [[|e0 e]|] [[|c0 c]|]; cbn; tauto. }
  destruct (post req) as [eid cid body|e] eqn:Hp.
  - destruct (truthy (or_else eid (default [] cid))) eqn:Ht; cbn;
      intros [= <-]; rewrite Hp.
    + split.
      { split; [|done]. intros _. exists eid, cid, body.
        split; [done|]. by apply Hor. }
      split.
      * intros eid' cid' body' [= <- <- <-] He.
        destruct eid as [[|e0 e]|]; done.
      * intros eid' cid' body' [= <- <- <-] He Hc.
        destruct eid as [[|e0 e]|], cid as [[|c0 c]|]; done.
    + split.
      { split; [done|]. intros (eid' & cid' & body' & [= <- <- <-] & Hor').
        apply Hor in Hor'. congruence. }
      split.
      * intros eid' cid' body' [= <- <- <-] He.
        exfalso. assert (truthy (or_else eid (default [] cid)) = true)
          by (apply Hor; by left). congruence.
      * intros eid' cid' body' [= <- <- <-] He Hc.
        exfalso. assert (truthy (or_else eid (default [] cid)) = true)
          by (apply Hor; by right). congruence.
  - cbn. intros [= <-]. rewrite Hp. split; [|done]. split; [done|].
    intros (eid' & cid' & body' & [=] & _).
Qed.

Lemma triggerOutboundCall_success_criterion_witness :
  let penv := {| Bolna.BOLNA_API_KEY := Some (js "bn-key");
                 Bolna.BOLNA_AGENT_ID := Some (js "agent-7");
                 Bolna.MOCK_BOLNA_CALLS := None |} in
  let post := λ _ : Bolna.CallRequest,
                Bolna.Fulfilled None (Some (js "call-9")) (js "{}") in
  callId (Bolna.triggerOutboundCall penv post 0 (js "k3x9") (js "9876543210")
            (js "Asha") Double.owner
            {| meta_city := None; meta_email := None; meta_notes := None |}).1
    = Some (js "call-9").
Proof.
  intros penv post.
  eapply (proj2 (proj2 (triggerOutboundCall_success_criterion penv post 0
            (js "k3x9") (js "9876543210") (js "Asha") Double.owner
            {| meta_city := None; meta_email := None; meta_notes := None |}
            _ eq_refl))); reflexivity.
Defined.

(** ** What a run does to the store and to the provider *)

Lemma calls_in_app t t' : calls_in (t ++ t') = (calls_in t + calls_in t')%nat.
Proof. unfold calls_in, call_times. by rewrite omap_app, length_app. Qed.

Lemma pacing_in_app t t' : pacing_in (t ++ t') = (pacing_in t + pacing_in t')%nat.
Proof.
  unfold pacing_in, timers. by rewrite omap_app, filter_app, length_app.
Qed.

Lemma pacing_in_delay : pacing_in [EvDelay CALL_DELAY] = 1%nat.
Proof. reflexivity. Qed.

Lemma pacing_in_pause : pacing_in [EvDelay 1000] = 0%nat.
Proof. reflexivity. Qed.

Ltac count_events :=
  rewrite ?calls_in_app, ?pacing_in_app, ?pacing_in_delay;
  change (calls_in [EvSave ?d]) with 0%nat;
  change (pacing_in [EvSave ?d]) with 0%nat;
  repeat match goal with
  | |- context [calls_in [EvSave ?d]] => change (calls_in [EvSave d]) with 0%nat
  | |- context [pacing_in [EvSave ?d]] => change (pacing_in [EvSave d]) with 0%nat
  | |- context [calls_in [EvCall ?a ?b ?c ?d]] =>
      change (calls_in [EvCall a b c d]) with 1%nat
  | |- context [pacing_in [EvCall ?a ?b ?c ?d]] =>
      change (pacing_in [EvCall a b c d]) with 0%nat
  | |- context [calls_in [EvDelay ?d]] => change (calls_in [EvDelay d]) with 0%nat
  end.

(** One iteration, whatever its outcome: the store is as before or holds
    the attempted document in the place of the fetched one; a provider call
    was placed only if the document had been saved as attempted; the pacing
    timer was awaited only while fewer than four entries had been processed. *)
Lemma for_body_effect env user len doc w c r w' c' :
  for_body env user len doc (w, c) = (r, (w', c')) →
  ((collection w' = collection w ∧ calls_in (trace w') = calls_in (trace w)) ∨
   (∃ d, attempted doc d ∧ collection w' = store_put d (collection w) ∧
         (calls_in (trace w') ≤ S (calls_in (trace w)))%nat)) ∧
  ((len ≤ MAX_CONCURRENT_CALLS)%nat →
   (pacing_in (trace w') + (4 - processedCount c')
    ≤ pacing_in (trace w) + (4 - processedCount c))%nat).
Proof.
  destruct w as [coll act t k tr], c as [pc sc fc].
  run_body. intros H.
  repeat (case_match; simplify_eq).
  all: split;
    [| unfold MAX_CONCURRENT_CALLS; intros Hlen; count_events; simpl; lia].
  all: first
    [ left; split; [reflexivity|]; count_events; lia
    | right; eexists;
      split; [|split; [first [reflexivity | apply store_put_put; reflexivity]|]];
      [unfold attempted; simpl; repeat split; first [done|lia]
      | count_events; lia] ].
Qed.

Lemma fmap_inj_on_NoDup {A B} (f : A → B) (l : list A) x y :
  NoDup (f <$> l) → x ∈ l → y ∈ l → f x = f y → x = y.
Proof.
  induction l as [|a l IH]; [by intros _ H%elem_of_nil|].
  rewrite fmap_cons, NoDup_cons. intros [Hn Hnd] Hx Hy Hf.
  apply elem_of_cons in Hx as [->|Hx]; apply elem_of_cons in Hy as [->|Hy].
  - done.
  - exfalso. apply Hn. rewrite Hf. by apply list_elem_of_fmap_2.
  - exfalso. apply Hn. rewrite <- Hf. by apply list_elem_of_fmap_2.
  - by apply IH.
Qed.

Lemma store_put_ids d c : _id <$> store_put d c = _id <$> c.
Proof.
  unfold store_put. rewrite <- list_fmap_compose. apply list_fmap_ext.
  intros _ e _. simpl. case_decide; congruence.
Qed.

Lemma store_put_other d c e : e ∈ c → _id e ≠ _id d → e ∈ store_put d c.
Proof.
  intros He Hne. unfold store_put. apply list_elem_of_fmap.
  exists e. split; [|done]. by rewrite decide_False.
Qed.

Lemma run_effect_trans user e1 e2 e3 :
  run_effect user e1 e2 → run_effect user e2 e3 → run_effect user e1 e3.
Proof.
  unfold run_effect.
  intros [E|[Hp Ha]] [E'|[Hp' Ha']]; subst; eauto.
  exfalso. destruct Ha as (_ & _ & _ & _ & _ & _ & _ & _ & _ & Hs).
  by destruct Hp'.
Qed.

Lemma run_effect_still_pending user e e' :
  run_effect user e e' → is_pending_of user e' → e' = e.
Proof.
  intros [E|[_ Ha]] Hp; [done|].
  exfalso. destruct Ha as (_ & _ & _ & _ & _ & _ & _ & _ & _ & Hs).
  by destruct Hp.
Qed.

Lemma Forall2_run_effect_refl user c : Forall2 (run_effect user) c c.
Proof. apply Forall_Forall2_diag, Forall_forall. intros; by left. Qed.

Lemma Forall2_run_effect_ids user c c' :
  Forall2 (run_effect user) c c' → _id <$> c' = _id <$> c.
Proof.
  induction 1 as [|e e' c c' Hr _ IH]; [done|]. rewrite !fmap_cons, IH. f_equal.
  destruct Hr as [->|[_ Ha]]; [done|]. apply Ha.
Qed.

Lemma store_put_run_effect user doc d c :
  NoDup (_id <$> c) → doc ∈ c → is_pending_of user doc → attempted doc d →
  Forall2 (run_effect user) c (store_put d c).
Proof.
  intros Hnd Hdoc Hp Ha. unfold store_put.
  apply Forall2_fmap_r, Forall_Forall2_diag, Forall_forall.
  intros e He. simpl. case_decide as Hid; [|by left].
  assert (e = doc) as ->.
  { eapply (fmap_inj_on_NoDup _id); [exact Hnd|done..|].
    rewrite Hid. apply Ha. }
  by right.
Qed.

(** Counting pending entries along any change that makes none pending. *)
Lemma pending_count_mono (R : IBulkCallQueue → IBulkCallQueue → Prop) user c c' :
  (∀ e e', R e e' → is_pending_of user e' → is_pending_of user e) →
  Forall2 R c c' →
  (pending_count user c' ≤ pending_count user c)%nat ∧
  ((∃ i e e', c !! i = Some e ∧ c' !! i = Some e' ∧
      is_pending_of user e ∧ ¬ is_pending_of user e') →
   (pending_count user c' < pending_count user c)%nat).
Proof.
  intros HR. unfold pending_count.
  induction 1 as [|e e' c c' Hs HF [IH1 IH2]].
  - split; [done|]. intros (i & e & e' & H & _). done.
  - pose proof (HR _ _ Hs) as Himp.
    rewrite !filter_cons. split.
    + repeat case_decide; simpl; try lia. exfalso; tauto.
    + intros (i & x & x' & Hx & Hx' & Hp & Ht).
      destruct i as [|i]; simpl in Hx, Hx'.
      * simplify_eq. rewrite (decide_True _ _ Hp).
        rewrite (decide_False _ _ Ht). simpl. lia.
      * assert (length (filter (is_pending_of user) c')
                < length (filter (is_pending_of user) c))%nat
          by (apply IH2; eauto 10).
        repeat case_decide; simpl; try lia. exfalso; tauto.
Qed.

Lemma run_effect_keeps_others_pending user u e e' :
  run_effect user e e' → is_pending_of u e' → is_pending_of u e.
Proof.
  intros [->|[_ Ha]] Hp; [done|].
  exfalso. destruct Ha as (_ & _ & _ & _ & _ & _ & _ & _ & _ & Hs).
  by destruct Hp.
Qed.

Lemma attempted_put_fewer_pending user doc d c :
  NoDup (_id <$> c) → doc ∈ c → is_pending_of user doc → attempted doc d →
  (pending_count user (store_put d c) < pending_count user c)%nat.
Proof.
  intros Hnd Hdoc Hp Ha.
  pose proof (store_put_run_effect user doc d c Hnd Hdoc Hp Ha) as HF.
  apply (pending_count_mono (run_effect user) user) in HF as [_ Hlt].
  2:{ intros e e'. apply run_effect_keeps_others_pending. }
  apply Hlt. apply list_elem_of_lookup in Hdoc as [i Hi].
  exists i, doc, d. split; [done|].
  split. { rewrite (store_put_lookup _ _ _ _ Hi). rewrite decide_True; [done|].
           symmetry. apply Ha. }
  split; [done|]. intros [_ Hs].
  destruct Ha as (_ & _ & _ & _ & _ & _ & _ & _ & _ & Hs'). done.
Qed.

Lemma for_of_effect env user len docs w c r w' c' :
  for_of env user len docs (w, c) = (r, (w', c')) →
  NoDup (_id <$> collection w) → NoDup (_id <$> docs) →
  (∀ doc, doc ∈ docs → doc ∈ collection w ∧ is_pending_of user doc) →
  Forall2 (run_effect user) (collection w) (collection w') ∧
  (calls_in (trace w') + pending_count user (collection w')
   ≤ calls_in (trace w) + pending_count user (collection w))%nat.
Proof.
  revert w c. induction docs as [|doc docs IH]; intros w c; simpl.
  - unfold ret. intros [= _ <- _] _ _ _. split; [apply Forall2_run_effect_refl|lia].
  - unfold bind.
    destruct (for_body env user len doc (w, c)) as [r1 [w1 c1]] eqn:E.
    intros Hrun Hnd Hdocs Hin.
    apply NoDup_cons in Hdocs as [Hfresh Hdocs].
    destruct (Hin doc) as [Hdoc Hp]; [left|].
    apply for_body_effect in E as [E _].
    assert (Forall2 (run_effect user) (collection w) (collection w1) ∧
            (calls_in (trace w1) + pending_count user (collection w1)
             ≤ calls_in (trace w) + pending_count user (collection w))%nat ∧
            ∀ d', d' ∈ docs → d' ∈ collection w1 ∧ is_pending_of user d')
      as (HF1 & Hcount1 & Hin1).
    { destruct E as [[-> ->]|(d & Ha & -> & Hcalls)].
      - split; [apply Forall2_run_effect_refl|]. split; [lia|].
        intros d' Hd'. apply Hin. by right.
      - split; [by eapply store_put_run_effect|].
        pose proof (attempted_put_fewer_pending user doc d _ Hnd Hdoc Hp Ha).
        split; [lia|].
        intros d' Hd'. destruct (Hin d') as [Hd'c Hd'p]; [by right|].
        split; [|done]. apply store_put_other; [done|].
        intros Heq. apply Hfresh.
        assert (_id d' = _id doc) as <- by (rewrite Heq; apply Ha).
        by apply list_elem_of_fmap_2. }
    destruct r1 as [[]|msg].
    + apply IH in Hrun as [HF Hcount]; [|by rewrite (Forall2_run_effect_ids _ _ _ HF1)|done..].
      split; [|lia].
      eapply Forall2_trans; [|exact HF1|exact HF]. apply run_effect_trans.
    + injection Hrun as <- <- <-. split; [done|lia].
Qed.

Lemma for_of_pacing env user len docs w c r w' c' :
  for_of env user len docs (w, c) = (r, (w', c')) →
  (len ≤ MAX_CONCURRENT_CALLS)%nat →
  (pacing_in (trace w') + (4 - processedCount c')
   ≤ pacing_in (trace w) + (4 - processedCount c))%nat.
Proof.
  intros Hrun Hlen. revert w c Hrun.
  induction docs as [|doc docs IH]; intros w c; simpl.
  - unfold ret. intros [= _ <- <-]. lia.
  - unfold bind.
    destruct (for_body env user len doc (w, c)) as [r1 [w1 c1]] eqn:E.
    apply for_body_effect in E as [_ E]. specialize (E Hlen).
    destruct r1 as [[]|msg].
    + intros Hrun. apply IH in Hrun. lia.
    + intros [= _ <- <-]. lia.
Qed.

Lemma pending_batch_length user c :
  (length (pending_batch user c) ≤ MAX_CONCURRENT_CALLS)%nat.
Proof. unfold pending_batch. rewrite length_take. lia. Qed.

Lemma pending_batch_ids user c :
  NoDup (_id <$> c) → NoDup (_id <$> pending_batch user c).
Proof.
  intros Hnd. unfold pending_batch.
  assert (H1 : NoDup (_id <$> filter (is_pending_of user) c)).
  { apply (sublist_NoDup _ (_id <$> c)); [exact Hnd|].
    apply fmap_sublist, sublist_filter. }
  assert (H2 : NoDup (_id <$> merge_sort older (filter (is_pending_of user) c)))
    by (by rewrite merge_sort_Permutation).
  apply (sublist_NoDup _ (_id <$> merge_sort older (filter (is_pending_of user) c)));
    [exact H2|].
  apply fmap_sublist, sublist_take.
Qed.

(** The loop, whatever its outcome. *)
Lemma while_true_effect env fuel user w c r w' c' :
  while_true env fuel user (w, c) = Some (r, (w', c')) →
  NoDup (_id <$> collection w) →
  Forall2 (run_effect user) (collection w) (collection w') ∧
  (calls_in (trace w') + pending_count user (collection w')
   ≤ calls_in (trace w) + pending_count user (collection w))%nat.
Proof.
  revert w c. induction fuel as [|fuel IH]; intros w c; [done|].
  cbn [while_true]. rewrite find_pending_run.
  assert (Hfind : calls_in (trace (record (EvFind user) w)) = calls_in (trace w)).
  { cbn [trace record]. rewrite calls_in_app.
    change (calls_in [EvFind user]) with 0%nat. lia. }
  destruct (query_outcome env (ops w)) as [msg|].
  { intros [= <- <- <-] _. split; [apply Forall2_run_effect_refl|]. rewrite Hfind.
    cbn [collection record]. lia. }
  case_decide as Hlen.
  { intros [= <- <- <-] _. split; [apply Forall2_run_effect_refl|]. rewrite Hfind.
    cbn [collection record]. lia. }
  rewrite batch_then_pause. intros Hrun Hnd.
  destruct (for_of _ _ _ _ _) as [r1 [w1 c1]] eqn:E.
  apply for_of_effect in E as [HF1 Hc1]; cbn [collection record fst snd] in *.
  2: done.
  2: by apply pending_batch_ids.
  2: apply pending_batch_elem.
  rewrite Hfind in Hc1. cbn [collection record] in Hc1.
  destruct r1 as [[]|msg].
  - apply IH in Hrun as [HF Hc]; cbn [collection advance record trace] in *.
    2: by rewrite (Forall2_run_effect_ids _ _ _ HF1).
    rewrite calls_in_app in Hc. change (calls_in [EvDelay 1000]) with 0%nat in Hc.
    split; [|lia].
    eapply Forall2_trans; [|exact HF1|exact HF]. apply run_effect_trans.
  - injection Hrun as <- <- <-. split; [done|lia].
Qed.

Lemma while_true_pacing env fuel user w c r w' c' :
  while_true env fuel user (w, c) = Some (r, (w', c')) →
  (pacing_in (trace w') + (4 - processedCount c')
   ≤ pacing_in (trace w) + (4 - processedCount c))%nat.
Proof.
  revert w c. induction fuel as [|fuel IH]; intros w c; [done|].
  cbn [while_true]. rewrite find_pending_run.
  assert (Hfind : pacing_in (trace (record (EvFind user) w)) = pacing_in (trace w)).
  { cbn [trace record]. rewrite pacing_in_app.
    change (pacing_in [EvFind user]) with 0%nat. lia. }
  destruct (query_outcome env (ops w)) as [msg|].
  { intros [= <- <- <-]. rewrite Hfind. lia. }
  case_decide as Hlen.
  { intros [= <- <- <-]. rewrite Hfind. lia. }
  rewrite batch_then_pause.
  destruct (for_of _ _ _ _ _) as [r1 [w1 c1]] eqn:E.
  apply for_of_pacing in E; [|apply pending_batch_length].
  rewrite Hfind in E.
  destruct r1 as [[]|msg].
  - intros Hrun. apply IH in Hrun. cbn [advance record trace] in Hrun.
    rewrite pacing_in_app, pacing_in_pause in Hrun. lia.
  - intros [= <- <- <-]. lia.
Qed.

Lemma processCallQueue_inv env fuel user w out w' :
  processCallQueue env fuel user w = Some (out, w') →
  (out = AlreadyRunning ∧ w' = w) ∨
  ∃ r w1 c1,
    while_true env fuel user
      (set_activeProcessors (<[user := true]> (activeProcessors w)) w,
       {| processedCount := 0; successCount := 0; failedCount := 0 |})
      = Some (r, (w1, c1)) ∧
    collection w' = collection w1 ∧ trace w' = trace w1 ∧
    activeProcessors w' = delete user (activeProcessors w1) ∧
    out = match r with Normal _ => Drained | Throw msg => RunError msg end.
Proof.
  unfold processCallQueue.
  destruct (default false (activeProcessors w !! user)).
  { intros [= <- <-]. by left. }
  destruct (while_true _ _ _ _) as [[r [w1 c1]]|] eqn:E; [|done].
  intros [= <- <-]. right. by exists r, w1, c1.
Qed.

Lemma processCallQueue_total env fuel user w :
  (pending_count user (collection w) < fuel)%nat →
  ∃ out w', processCallQueue env fuel user w = Some (out, w').
Proof.
  intros Hfuel. unfold processCallQueue.
  destruct (default false (activeProcessors w !! user)); [eauto|].
  set (w0 := set_activeProcessors _ w).
  destruct (while_true_total env fuel user w0
              {| processedCount := 0; successCount := 0; failedCount := 0 |})
    as [[r [w1 c1]] E]; [done|].
  rewrite E. eauto.
Qed.

(** Every run, whatever its outcome, relates the store before and after
    entry by entry. *)
Lemma processCallQueue_effect env fuel user w out w' :
  processCallQueue env fuel user w = Some (out, w') →
  NoDup (_id <$> collection w) →
  Forall2 (run_effect user) (collection w) (collection w') ∧
  (calls_in (trace w') + pending_count user (collection w')
   ≤ calls_in (trace w) + pending_count user (collection w))%nat.
Proof.
  intros Hrun Hnd.
  apply processCallQueue_inv in Hrun
    as [[_ ->]|(r & w1 & c1 & E & -> & -> & _)].
  { split; [apply Forall2_run_effect_refl|lia]. }
  by apply while_true_effect in E.
Qed.

(** X8. Over a store with unique identifiers a run of processCallQueue,
    however it ends, adds and removes no entry, leaves every entry unchanged
    that was not a pending entry of the owner, and for the others keeps
    identifier, owner, contact fields and creation time and counts at most
    one more attempt. *)
Theorem processCallQueue_frame env fuel user w :
  NoDup (_id <$> collection w) →
  (pending_count user (collection w) < fuel)%nat →
  ∃ out w', processCallQueue env fuel user w = Some (out, w') ∧
    length (collection w') = length (collection w) ∧
    ∀ i e, collection w !! i = Some e →
      ∃ e', collection w' !! i = Some e' ∧
        (¬ is_pending_of user e → e' = e) ∧
        _id e' = _id e ∧ userId e' = userId e ∧ name e' = name e ∧
        phone e' = phone e ∧ city e' = city e ∧ email e' = email e ∧
        notes e' = notes e ∧ createdAt e' = createdAt e ∧
        (callAttempts e ≤ callAttempts e' ≤ S (callAttempts e))%nat.
Proof.
  intros Hnd Hfuel.
  destruct (processCallQueue_total env fuel user w Hfuel) as (out & w' & Hrun).
  exists out, w'. split; [done|].
  apply processCallQueue_effect in Hrun as [HF _]; [|done].
  split; [symmetry; by eapply Forall2_length|].
  intros i e Hi.
  destruct (Forall2_lookup_l _ _ _ _ _ HF Hi) as (e' & He' & [->|[Hp Ha]]).
  - exists e. split; [done|]. repeat split; done || lia.
  - exists e'. split; [done|]. split; [done|].
    destruct Ha as (? & ? & ? & ? & ? & ? & ? & ? & Hatt & _).
    repeat split; done || lia.
Qed.

Lemma processCallQueue_frame_witness :
  let w := Double.stored [Double.entry 1 failed; Double.entry 2 pending] in
  ∃ out w', processCallQueue Double.instant 2 Double.owner w = Some (out, w') ∧
    length (collection w') = 2%nat ∧
    ∀ i e, collection w !! i = Some e →
      ∃ e', collection w' !! i = Some e' ∧
        (¬ is_pending_of Double.owner e → e' = e) ∧
        _id e' = _id e ∧ userId e' = userId e ∧ name e' = name e ∧
        phone e' = phone e ∧ city e' = city e ∧ email e' = email e ∧
        notes e' = notes e ∧ createdAt e' = createdAt e ∧
        (callAttempts e ≤ callAttempts e' ≤ S (callAttempts e))%nat.
Proof.
  intros w. apply processCallQueue_frame.
  - apply (bool_decide_unpack _). vm_compute. exact I.
  - vm_compute. lia.
Defined.

(** A drained run has settled every entry that was pending, by one attempt. *)
Lemma processCallQueue_drained_effect env fuel user w w' :
  processCallQueue env fuel user w = Some (Drained, w') →
  NoDup (_id <$> collection w) →
  ∀ i e, collection w !! i = Some e → is_pending_of user e →
    ∃ e', collection w' !! i = Some e' ∧ terminal e' ∧ attempted e e'.
Proof.
  intros Hrun Hnd i e Hi Hp.
  pose proof (processCallQueue_effect _ _ _ _ _ _ Hrun Hnd) as [HF _].
  apply processCallQueue_inv in Hrun
    as [[? _]|(r & w1 & c1 & E & Hc & _ & _ & Hout)]; [done|].
  destruct r as [[]|]; [|done].
  apply while_true_spec in E as [_ E]. destruct E as [HS Hzero]; [done|].
  cbn [collection set_activeProcessors fst snd] in HS, Hzero.
  rewrite <- Hc in HS, Hzero.
  destruct (Forall2_lookup_l _ _ _ _ _ HF Hi) as (e' & He' & Hre).
  destruct (Forall2_lookup_l _ _ _ _ _ HS Hi) as (e'' & He'' & Hse).
  assert (e'' = e') as -> by congruence.
  exists e'. split; [done|].
  destruct Hre as [->|[_ Ha]].
  - exfalso. unfold pending_count in Hzero. apply nil_length_inv in Hzero.
    assert (e ∈ filter (is_pending_of user) (collection w')) as Hin.
    { apply list_elem_of_filter. split; [done|]. by eapply list_elem_of_lookup_2. }
    rewrite Hzero in Hin. by apply elem_of_nil in Hin.
  - destruct Hse as [->|(_ & Ht & _)]; [|done].
    exfalso. destruct Ha as (_ & _ & _ & _ & _ & _ & _ & _ & _ & Hs).
    by destruct Hp.
Qed.

(** X9. Over a store with unique identifiers, a run that drains the queue
    has attempted every entry of the owner that was pending exactly once:
    the entry ends completed or failed with callAttempts one higher than
    before, and with the same owner and contact fields. *)
Theorem processCallQueue_one_attempt_each env fuel user w :
  NoDup (_id <$> collection w) →
  (pending_count user (collection w) < fuel)%nat →
  ∃ out w', processCallQueue env fuel user w = Some (out, w') ∧
    (out = Drained →
     ∀ i e, collection w !! i = Some e → is_pending_of user e →
       ∃ e', collection w' !! i = Some e' ∧
             (status e' = completed ∨ status e' = failed) ∧
             callAttempts e' = S (callAttempts e) ∧
             attempted e e').
Proof.
  intros Hnd Hfuel.
  destruct (processCallQueue_total env fuel user w Hfuel) as (out & w' & Hrun).
  exists out, w'. split; [done|]. intros -> i e Hi Hp.
  destruct (processCallQueue_drained_effect _ _ _ _ _ Hrun Hnd i e Hi Hp)
    as (e' & He' & Ht & Ha).
  exists e'. split; [done|]. split; [done|]. split; [apply Ha|done].
Qed.

Lemma processCallQueue_one_attempt_each_witness :
  let w := Double.queued 3 in
  ∃ out w', processCallQueue Double.flaky 4 Double.owner w = Some (out, w') ∧
    (out = Drained →
     ∀ i e, collection w !! i = Some e → is_pending_of Double.owner e →
       ∃ e', collection w' !! i = Some e' ∧
             (status e' = completed ∨ status e' = failed) ∧
             callAttempts e' = S (callAttempts e) ∧
             attempted e e').
Proof.
  intros w. apply processCallQueue_one_attempt_each.
  - apply (bool_decide_unpack _). vm_compute. exact I.
  - vm_compute. lia.
Defined.

(** X10. Over a store with unique identifiers a run places at most one
    provider call for each entry of the owner that was pending when it
    started, however it ends. *)
Theorem processCallQueue_calls_bounded env fuel user w :
  NoDup (_id <$> collection w) →
  (pending_count user (collection w) < fuel)%nat →
  ∃ out w', processCallQueue env fuel user w = Some (out, w') ∧
    (calls_in (trace w') + pending_count user (collection w')
     ≤ calls_in (trace w) + pending_count user (collection w))%nat.
Proof.
  intros Hnd Hfuel.
  destruct (processCallQueue_total env fuel user w Hfuel) as (out & w' & Hrun).
  exists out, w'. split; [done|].
  by apply processCallQueue_effect in Hrun as [_ H].
Qed.

Lemma processCallQueue_calls_bounded_witness :
  let w := Double.queued 7 in
  ∃ out w', processCallQueue Double.instant 8 Double.owner w = Some (out, w') ∧
    (calls_in (trace w') + pending_count Double.owner (collection w')
     ≤ calls_in (trace w) + pending_count Double.owner (collection w))%nat.
Proof.
  intros w. apply processCallQueue_calls_bounded.
  - apply (bool_decide_unpack _). vm_compute. exact I.
  - vm_compute. lia.
Defined.

(** X11. However many entries a run processes and however it ends, it
    awaits the 2-second pacing timer at most four times, one less than
    MAX_CONCURRENT_CALLS: the counter it compares with the batch length is
    never reset between batches. *)
Theorem processCallQueue_pacing_bounded env fuel user w :
  (pending_count user (collection w) < fuel)%nat →
  ∃ out w', processCallQueue env fuel user w = Some (out, w') ∧
    (pacing_in (trace w') ≤ pacing_in (trace w) + (MAX_CONCURRENT_CALLS - 1))%nat.
Proof.
  intros Hfuel.
  destruct (processCallQueue_total env fuel user w Hfuel) as (out & w' & Hrun).
  exists out, w'. split; [done|].
  apply processCallQueue_inv in Hrun
    as [[_ ->]|(r & w1 & c1 & E & _ & -> & _)]; [lia|].
  apply while_true_pacing in E.
  cbn [trace set_activeProcessors processedCount] in E.
  unfold MAX_CONCURRENT_CALLS. lia.
Qed.

Lemma processCallQueue_pacing_bounded_witness :
  let w := Double.queued 7 in
  ∃ out w', processCallQueue Double.instant 8 Double.owner w = Some (out, w') ∧
    (pacing_in (trace w') ≤ pacing_in (trace w) + (MAX_CONCURRENT_CALLS - 1))%nat.
Proof.
  intros w. apply processCallQueue_pacing_bounded. vm_compute. lia.
Defined.

(** ** The other jobs *)

Lemma pending_count_le_length user c : (pending_count user c ≤ length c)%nat.
Proof. apply length_filter. Qed.

Lemma updateMany_run env user (P : IBulkCallQueue → Prop)
    `{!∀ d, Decision (P d)} s w :
  updateMany env user P s w =
  match query_outcome env (ops w) with
  | Some msg => (Throw msg, record (EvUpdateMany user) w)
  | None =>
    (Normal (length (filter (λ d, P d ∧ (status d ≠ s ∨ updatedAt d ≠ now w))
                       (collection w))),
     set_collection ((λ d, if decide (P d)
                           then set_updatedAt (now w) (set_status s d) else d)
                       <$> collection w)
       (record (EvUpdateMany user) w))
  end.
Proof. unfold updateMany. by destruct (query_outcome env (ops w)). Qed.

(** X12. retryFailedCalls, when its update is answered, resets to pending
    the owner's failed entries with fewer than maxRetries attempts and runs
    the processor. Over a store with unique identifiers, entries of other
    owners, entries that are processing or completed, and failed entries
    that have used up their attempts are left exactly as they were; when the
    run drains the queue, every failed entry that was still eligible has
    been attempted once more. *)
Theorem retryFailedCalls_respects_limit env fuel user maxRetries w :
  NoDup (_id <$> collection w) →
  query_outcome env (ops w) = None →
  (length (collection w) < fuel)%nat →
  let limit := default 3%nat maxRetries in
  let eligible := λ e, userId e = user ∧ status e = failed ∧
                       (callAttempts e < limit)%nat in
  ∃ out w',
    retryFailedCalls env fuel user maxRetries w
      = Some (ResetThenRun (length (filter eligible (collection w))) out, w') ∧
    ∀ i e, collection w !! i = Some e →
      ∃ e', collection w' !! i = Some e' ∧
        (¬ eligible e → ¬ is_pending_of user e → e' = e) ∧
        (out = Drained → eligible e →
           (status e' = completed ∨ status e' = failed) ∧
           callAttempts e' = S (callAttempts e) ∧
           name e' = name e ∧ phone e' = phone e ∧ userId e' = userId e).
Proof.
  intros Hnd Hq Hfuel limit eligible.
  unfold retryFailedCalls. fold limit. rewrite updateMany_run, Hq.
  set (reset := λ d, if decide (userId d = user ∧ status d = failed ∧
                                 (callAttempts d < limit)%nat)
                     then set_updatedAt (now w) (set_status pending d) else d).
  set (w1 := set_collection (reset <$> collection w) _).
  assert (Hcount : length (filter (λ d, (userId d = user ∧ status d = failed ∧
                     (callAttempts d < limit)%nat) ∧
                     (status d ≠ pending ∨ updatedAt d ≠ now w))
                     (collection w))
                   = length (filter eligible (collection w))).
  { f_equal. apply list_filter_iff. intros d. unfold eligible. split; [tauto|].
    intros (H1 & H2 & H3). split; [done|]. left. congruence. }
  rewrite Hcount.
  assert (Hc1 : collection w1 = reset <$> collection w) by done.
  assert (Hnd1 : NoDup (_id <$> collection w1)).
  { rewrite Hc1, <- list_fmap_compose.
    rewrite (list_fmap_ext (_id ∘ reset) _id (collection w)); [done|].
    intros _ d _. unfold reset. simpl. by case_decide. }
  destruct (processCallQueue_total env fuel user w1) as (out & w' & Hrun).
  { pose proof (pending_count_le_length user (collection w1)) as Hle.
    assert (length (collection w1) = length (collection w)) as Hlen
      by (by rewrite Hc1, length_fmap).
    lia. }
  rewrite Hrun. exists out, w'. split; [done|].
  intros i e Hi.
  assert (Hi1 : collection w1 !! i = Some (reset e))
    by (by rewrite Hc1, list_lookup_fmap, Hi).
  pose proof (processCallQueue_effect _ _ _ _ _ _ Hrun Hnd1) as [HF _].
  destruct (Forall2_lookup_l _ _ _ _ _ HF Hi1) as (e' & He' & Hre).
  exists e'. split; [done|]. split.
  - intros Hne Hnp. unfold reset in Hre. rewrite decide_False in Hre by done.
    destruct Hre as [->|[Hp _]]; done.
  - intros -> He.
    destruct (processCallQueue_drained_effect _ _ _ _ _ Hrun Hnd1 i (reset e) Hi1)
      as (e'' & He'' & Ht & Ha).
    { unfold reset. rewrite decide_True by done. split; [apply He|done]. }
    assert (e'' = e') as -> by congruence.
    unfold reset in Ha. rewrite decide_True in Ha by done.
    destruct Ha as (_ & Hu & Hn & Hph & _ & _ & _ & _ & Hatt & _).
    simpl in *. repeat split; done.
Qed.

Lemma retryFailedCalls_respects_limit_witness :
  let w := Double.stored
             [Double.entry 1 failed;
              set_callAttempts 3 (Double.entry 2 failed);
              Double.entry 3 completed] in
  let eligible := λ e, userId e = Double.owner ∧ status e = failed ∧
                       (callAttempts e < 3)%nat in
  ∃ out w',
    retryFailedCalls Double.instant 4 Double.owner None w
      = Some (ResetThenRun (length (filter eligible (collection w))) out, w') ∧
    ∀ i e, collection w !! i = Some e →
      ∃ e', collection w' !! i = Some e' ∧
        (¬ eligible e → ¬ is_pending_of Double.owner e → e' = e) ∧
        (out = Drained → eligible e →
           (status e' = completed ∨ status e' = failed) ∧
           callAttempts e' = S (callAttempts e) ∧
           name e' = name e ∧ phone e' = phone e ∧ userId e' = userId e).
Proof.
  intros w eligible.
  apply (retryFailedCalls_respects_limit Double.instant 4 Double.owner None w).
  - apply (bool_decide_unpack _). vm_compute. exact I.
  - reflexivity.
  - vm_compute. lia.
Defined.

(** A run whose queries are answered and whose saves of failed documents
    are accepted drains the queue of its owner. *)
Lemma processCallQueue_drains env fuel user w :
  (∀ k, query_outcome env k = None) →
  (∀ k d, status d = failed → save_outcome env k d = None) →
  activeProcessors w !! user ≠ Some true →
  (pending_count user (collection w) < fuel)%nat →
  ∃ w', processCallQueue env fuel user w = Some (Drained, w') ∧
        Forall2 settled_from (collection w) (collection w') ∧
        pending_count user (collection w') = 0%nat ∧
        activeProcessors w' = delete user (activeProcessors w).
Proof.
  intros Hq Hs Hact Hfuel. unfold processCallQueue.
  rewrite (not_active_default _ _ Hact).
  set (w0 := set_activeProcessors _ w).
  destruct (while_true_total env fuel user w0
              {| processedCount := 0; successCount := 0; failedCount := 0 |})
    as [[r [w1 c1]] E]; [done|].
  rewrite E.
  pose proof (while_true_normal_if_catch_saves _ _ _ _ _ _ _ Hq Hs E) as ->.
  eexists. split; [reflexivity|].
  apply while_true_spec in E as [Ha E]. destruct E as [HF Hp]; [done|].
  cbn in Ha, HF |- *. split; [done|]. split; [done|].
  rewrite Ha. apply delete_insert_eq.
Qed.

Lemma settled_from_keeps_others_pending u e e' :
  settled_from e e' → is_pending_of u e' → is_pending_of u e.
Proof.
  intros [->|(_ & Ht & _)] Hp; [done|]. by apply terminal_not_pending in Hp.
Qed.

Lemma process_each_drains env fuel users w :
  (∀ k, query_outcome env k = None) →
  (∀ k d, status d = failed → save_outcome env k d = None) →
  (∀ u, activeProcessors w !! u ≠ Some true) →
  (length (collection w) < fuel)%nat →
  ∃ outs w', process_each env fuel users w = Some (outs, w') ∧
    outs = replicate (length users) Drained ∧
    Forall2 settled_from (collection w) (collection w') ∧
    (∀ u, u ∈ users → pending_count u (collection w') = 0%nat) ∧
    (∀ u, activeProcessors w' !! u ≠ Some true).
Proof.
  intros Hq Hs. revert w. induction users as [|user users IH]; intros w Hact Hfuel.
  - exists [], w. split; [done|]. split; [done|].
    split; [apply Forall2_settled_refl|]. split; [|done].
    intros u Hu. by apply elem_of_nil in Hu.
  - cbn [process_each].
    destruct (processCallQueue_drains env fuel user w Hq Hs (Hact user))
      as (w1 & -> & HF1 & Hz1 & Ha1).
    { pose proof (pending_count_le_length user (collection w)). lia. }
    destruct (IH w1) as (outs & w2 & -> & -> & HF2 & Hz2 & Ha2).
    { intros u. rewrite Ha1. destruct (decide (u = user)) as [->|Hne].
      - by rewrite lookup_delete_eq.
      - rewrite lookup_delete_ne by done. apply Hact. }
    { by rewrite <- (Forall2_length _ _ _ HF1). }
    eexists _, _. split; [reflexivity|]. split; [done|].
    split. { eapply Forall2_trans; [|exact HF1|exact HF2]. apply settled_from_trans. }
    split; [|done].
    intros u Hu. apply elem_of_cons in Hu as [->|Hu]; [|by apply Hz2].
    pose proof (pending_count_mono settled_from user _ _
                  (settled_from_keeps_others_pending user) HF2) as [Hle _].
    lia.
Qed.

Lemma pending_owner_listed c e :
  e ∈ c → status e = pending → userId e ∈ distinct_pending_users c.
Proof.
  intros He Hs. unfold distinct_pending_users.
  apply elem_of_remove_dups, list_elem_of_fmap. exists e. split; [done|].
  by apply list_elem_of_filter.
Qed.

(** X13. When no processor is running, queries are answered and the store
    accepts the saves of failed entries, processAllPendingCalls runs the
    processor once for every owner that has a pending entry, every run
    drains, and afterwards the store holds no pending entry of any owner and
    no owner is marked as running. *)
Theorem processAllPendingCalls_drains_all env fuel w :
  (∀ k, query_outcome env k = None) →
  (∀ k d, status d = failed → save_outcome env k d = None) →
  (∀ u, activeProcessors w !! u ≠ Some true) →
  (length (collection w) < fuel)%nat →
  ∃ outs w',
    processAllPendingCalls env fuel w = Some (outs, w') ∧
    outs = replicate (length (distinct_pending_users (collection w))) Drained ∧
    length (collection w') = length (collection w) ∧
    (∀ e, e ∈ collection w' → status e ≠ pending) ∧
    (∀ u, activeProcessors w' !! u ≠ Some true).
Proof.
  intros Hq Hs Hact Hfuel. unfold processAllPendingCalls. rewrite Hq.
  destruct (process_each_drains env fuel (distinct_pending_users (collection w))
              (tick w) Hq Hs Hact Hfuel)
    as (outs & w' & Hrun & Houts & HF & Hz & Ha).
  cbn [collection tick] in HF, Hz.
  exists outs, w'. split; [done|]. split; [done|].
  split; [symmetry; by eapply Forall2_length|]. split; [|done].
  intros e' He' Hs'.
  apply list_elem_of_lookup in He' as [i Hi'].
  destruct (Forall2_lookup_r _ _ _ _ _ HF Hi') as (e & Hi & Hse).
  assert (is_pending_of (userId e') e) as Hp.
  { apply (settled_from_keeps_others_pending _ e e'); done. }
  assert (userId e' ∈ distinct_pending_users (collection w)) as Hu.
  { destruct Hp as [<- Hp]. apply pending_owner_listed; [|done].
    by eapply list_elem_of_lookup_2. }
  specialize (Hz _ Hu). unfold pending_count in Hz. apply nil_length_inv in Hz.
  assert (e' ∈ filter (is_pending_of (userId e')) (collection w')) as Hin.
  { apply list_elem_of_filter. split; [done|]. by eapply list_elem_of_lookup_2. }
  rewrite Hz in Hin. by apply elem_of_nil in Hin.
Qed.

Lemma processAllPendingCalls_drains_all_witness :
  let w := Double.stored
             [Double.entry 1 pending;
              {| _id := 2; userId := js "u2"; name := js "Bela";
                 phone := js "+14155550100"; city := None; email := None;
                 notes := None; status := pending; bolnaCallId := None;
                 errorMessage := None; callAttempts := 0;
                 lastAttemptAt := None; createdAt := 2;
                  updatedAt := 2 |}] in
  ∃ outs w',
    processAllPendingCalls Double.unreachable 3 w = Some (outs, w') ∧
    outs = replicate (length (distinct_pending_users (collection w))) Drained ∧
    length (collection w') = length (collection w) ∧
    (∀ e, e ∈ collection w' → status e ≠ pending) ∧
    (∀ u, activeProcessors w' !! u ≠ Some true).
Proof.
  intros w. apply processAllPendingCalls_drains_all.
  - intros k. reflexivity.
  - intros k d _. reflexivity.
  - intros u. cbn. rewrite lookup_empty. discriminate.
  - vm_compute. lia.
Defined.

(** The owner's entries split by status. *)
Lemma owner_entries_by_status user c :
  length (filter (λ d, userId d = user) c) =
  (length (filter (λ d, userId d = user ∧ status d = pending) c)
   + length (filter (λ d, userId d = user ∧ status d = processing) c)
   + length (filter (λ d, userId d = user ∧ status d = completed) c)
   + length (filter (λ d, userId d = user ∧ status d = failed) c))%nat.
Proof.
  induction c as [|d c IH]; [done|].
  rewrite !filter_cons.
  repeat case_decide; simpl; try lia.
  all: exfalso; destruct (status d) eqn:Hs; intuition congruence.
Qed.

Lemma summarize_groups (p q c f : nat) :
  let summary :=
    summarize (filter (λ g : Status * nat, g.2 ≠ 0%nat)
                 [(pending, p); (processing, q); (completed, c); (failed, f)]) in
  n_pending summary = p ∧ n_processing summary = q ∧ n_completed summary = c ∧
  n_failed summary = f ∧ total summary = (p + q + c + f)%nat ∧
  total summary = (n_pending summary + n_processing summary
                   + n_completed summary + n_failed summary)%nat.
Proof.
  rewrite !filter_cons, filter_nil. cbn [snd].
  destruct (decide (p ≠ 0%nat)), (decide (q ≠ 0%nat)), (decide (c ≠ 0%nat)),
    (decide (f ≠ 0%nat)); cbn; repeat split; lia.
Qed.

(** X14. When the store answers, getQueueStats reports for each status the
    number of the owner's entries in that status, and as total the number of
    all entries of the owner, which is the sum of the four; entries of other
    owners are not counted and the store is not changed. *)
Theorem getQueueStats_counts env user w :
  query_outcome env (ops w) = None →
  ∃ summary,
    (getQueueStats env user w).1 = Some summary ∧
    collection (getQueueStats env user w).2 = collection w ∧
    n_pending summary
      = length (filter (λ d, userId d = user ∧ status d = pending) (collection w)) ∧
    n_processing summary
      = length (filter (λ d, userId d = user ∧ status d = processing) (collection w)) ∧
    n_completed summary
      = length (filter (λ d, userId d = user ∧ status d = completed) (collection w)) ∧
    n_failed summary
      = length (filter (λ d, userId d = user ∧ status d = failed) (collection w)) ∧
    total summary = length (filter (λ d, userId d = user) (collection w)) ∧
    total summary
      = (n_pending summary + n_processing summary + n_completed summary
         + n_failed summary)%nat.
Proof.
  intros Hq. unfold getQueueStats. rewrite Hq. eexists. split; [reflexivity|].
  split; [reflexivity|].
  rewrite (owner_entries_by_status user (collection w)).
  apply (summarize_groups
           (length (filter (λ d, userId d = user ∧ status d = pending) (collection w)))
           (length (filter (λ d, userId d = user ∧ status d = processing) (collection w)))
           (length (filter (λ d, userId d = user ∧ status d = completed) (collection w)))
           (length (filter (λ d, userId d = user ∧ status d = failed) (collection w)))).
Qed.

Lemma getQueueStats_counts_witness :
  let w := Double.stored [Double.entry 1 failed; Double.entry 2 completed;
                          Double.entry 3 failed] in
  ∃ summary,
    (getQueueStats Double.instant Double.owner w).1 = Some summary ∧
    n_failed summary = 2%nat ∧ n_completed summary = 1%nat ∧
    n_pending summary = 0%nat ∧ total summary = 3%nat.
Proof.
  intros w.
  destruct (getQueueStats_counts Double.instant Double.owner w eq_refl)
    as (summary & Hs & _ & Hp & _ & Hc & Hf & Ht & _).
  exists summary. split; [exact Hs|].
  rewrite Hf, Hc, Hp, Ht. vm_compute. repeat split; reflexivity.
Defined.

(** ** The routes *)

(** X15. The retry route with a list of identifiers, when the store
    answers, resets to pending exactly the entries that are listed, belong
    to the caller and are failed, stamping their updatedAt with the time of
    the update and changing no other field of them; listed entries of other
    owners and listed entries in any other status are left as they are. It
    reports the number of entries reset, or 404 when there is none. Without
    a non-empty list it answers 400 and sends nothing to the store. *)
Theorem retry_resets_only_listed_failed env user ids w :
  query_outcome env (ops w) = None →
  ids ≠ [] →
  let listed := λ e, _id e ∈ ids ∧ userId e = user ∧ status e = failed in
  let n := length (filter listed (collection w)) in
  (∃ trig w',
     retry env user (Some ids) w =
       (Normal (if decide (n = 0)%nat
                then RetryNotFound (js "No failed calls found to retry")
                else RetryOk n, trig), w') ∧
     (n ≤ length (collection w))%nat ∧
     ∀ i e, collection w !! i = Some e →
       ∃ e', collection w' !! i = Some e' ∧
         if decide (listed e)
         then status e' = pending ∧ updatedAt e' = now w ∧
              same_but_status_updatedAt e e'
         else e' = e)
  ∧ retry env user None w = (Normal (RetryBadRequest, None), w)
  ∧ retry env user (Some []) w = (Normal (RetryBadRequest, None), w).
Proof.
  intros Hq Hids listed n. split; [|done].
  unfold retry, try_catch, bind. destruct ids as [|id ids]; [done|].
  rewrite updateMany_run, Hq.
  match goal with
  | |- context [length (@filter _ _ _ ?P ?D (collection w))] =>
    assert (Hcount : length (@filter _ _ _ P D (collection w)) = n)
  end.
  { unfold n. f_equal. apply list_filter_iff. intros d. unfold listed.
    split; [tauto|]. intros (H1 & H2 & H3). split; [done|]. left. congruence. }
  rewrite Hcount.
  assert (Hres : ∀ w', collection w' =
            (λ d, if decide (_id d ∈ id :: ids ∧ userId d = user ∧ status d = failed)
                  then set_updatedAt (now w) (set_status pending d) else d)
              <$> collection w →
          ∀ i e, collection w !! i = Some e →
            ∃ e', collection w' !! i = Some e' ∧
              if decide (listed e)
              then status e' = pending ∧ updatedAt e' = now w ∧
                   same_but_status_updatedAt e e'
              else e' = e).
  { intros w' -> i e Hi. rewrite list_lookup_fmap, Hi. eexists; split; [reflexivity|].
    unfold listed. case_decide; [|done]. split; [done|]. split; [done|].
    by repeat split. }
  assert (Hn : (n ≤ length (collection w))%nat) by apply length_filter.
  destruct (decide (n = 0)%nat); unfold ret; eexists _, _;
    (split; [reflexivity|]); (split; [exact Hn|]); by apply Hres.
Qed.

Lemma retry_resets_only_listed_failed_witness :
  let other := {| _id := 2; userId := js "u2"; name := js "Bela";
                  phone := js "+14155550100"; city := None; email := None;
                  notes := None; status := failed; bolnaCallId := None;
                  errorMessage := None; callAttempts := 1;
                  lastAttemptAt := None; createdAt := 2;
                  updatedAt := 2 |} in
  let w := Double.stored [Double.entry 1 failed; other; Double.entry 3 completed] in
  let listed := λ e, _id e ∈ [1; 2; 3]%nat ∧ userId e = Double.owner ∧
                     status e = failed in
  ∃ trig w',
    retry Double.instant Double.owner (Some [1; 2; 3]%nat) w =
      (Normal (RetryOk 1, trig), w') ∧
    ∀ i e, collection w !! i = Some e →
      ∃ e', collection w' !! i = Some e' ∧
        if decide (listed e)
        then status e' = pending ∧ updatedAt e' = now w ∧
             same_but_status_updatedAt e e'
        else e' = e.
Proof.
  intros other w listed.
  destruct (proj1 (retry_resets_only_listed_failed Double.instant Double.owner
                     [1; 2; 3]%nat w eq_refl ltac:(discriminate)))
    as (trig & w' & Hrun & _ & Hall).
  exists trig, w'. split; [exact Hrun|exact Hall].
Defined.







Lemma new_documents_invalid lc first t user contacts :
  user ≠ [] →
  forallb valid_document
    (imap (λ i, new_document lc (first + i)%nat t user) contacts) = false →
  ∃ c, c ∈ contacts ∧ (trim (pc_name c) = [] ∨ trim (pc_phone c) = []).
Proof.
  intros Hu. revert first. induction contacts as [|c cs IH]; intros first; [done|].
  cbn [imap forallb]. intros H. apply andb_false_iff in H as [H|H].
  - exists c. split; [left|].
    unfold valid_document, new_document in H. cbn in H.
    destruct user; [done|]. cbn in H.
    destruct (trim (pc_name c)); [by left|].
    destruct (trim (pc_phone c)); [by right|done].
  - rewrite (imap_ext _ (λ i, new_document lc (S first + i)%nat t user)) in H.
    + destruct (IH _ H) as (c' & Hc' & Hb). exists c'. split; [by right|done].
    + intros i x _. simpl. f_equal. lia.
Qed.

(** The upload route, case by case. *)
Lemma upload_cases env lc parse req w :
  ∃ resp trig w',
    upload env lc parse req w = (Normal (resp, trig), w') ∧
    match resp with
    | UploadCreated summary listed errs dups =>
      ∃ user path,
        up_userId req = Some user ∧ user ≠ [] ∧ trig = Some user ∧
        up_file req = Some path ∧ path ≠ [] ∧
        pr_success (parse path) = true ∧ pr_contacts (parse path) ≠ [] ∧
        savedContacts summary = length (pr_contacts (parse path)) ∧
        length (collection w') =
          (length (collection w) + length (pr_contacts (parse path)))%nat
    | UploadFailed msg =>
      collection w' = collection w ∧ trig = None ∧
      ((∃ k, query_outcome env k = Some msg) ∨
       ∃ path c, up_file req = Some path ∧ c ∈ pr_contacts (parse path) ∧
                 (trim (pc_name c) = [] ∨ trim (pc_phone c) = []))
    | UploadParseFailed details total valid =>
      collection w' = collection w ∧ trig = None ∧
      ∃ path, up_file req = Some path ∧
              (pr_success (parse path) = false ∨ pr_contacts (parse path) = [])
    | UploadNoFile | UploadUnauthorized => w' = w ∧ trig = None
    end.
Proof.
  unfold upload, try_catch. cbv zeta.
  destruct (up_file req) as [[|p0 path]|] eqn:Hf; cbn [default from_option id truthy negb];
    [by eexists _, _, _|..|by eexists _, _, _].
  destruct (up_userId req) as [[|u0 user]|] eqn:Hu; cbn [default from_option id truthy negb];
    [by eexists _, _, _|..|by eexists _, _, _].
  set (path' := p0 :: path). set (user' := u0 :: user).
  destruct (pr_success (parse path')) eqn:Hs; cbn [negb orb].
  2:{ eexists _, _, _. split; [reflexivity|]. cbn. eauto 10. }
  case_bool_decide as Hc.
  { eexists _, _, _. split; [reflexivity|]. cbn. split; [done|]. split; [done|].
    exists path'. split; [done|]. right. by apply nil_length_inv. }
  assert (Hne : pr_contacts (parse path') ≠ []).
  { intros E. apply Hc. by rewrite E. }
  assert (Hins : ∀ w1, collection w1 = collection w →
     match insertMany env lc user' (pr_contacts (parse path')) w1 with
     | (Normal docs, w2) =>
       length docs = length (pr_contacts (parse path')) ∧
       length (collection w2) =
         (length (collection w) + length (pr_contacts (parse path')))%nat
     | (Throw msg, w2) =>
       collection w2 = collection w ∧
       ((∃ k, query_outcome env k = Some msg) ∨
        ∃ c, c ∈ pr_contacts (parse path') ∧
             (trim (pc_name c) = [] ∨ trim (pc_phone c) = []))
     end).
  { intros w1 Hw1. unfold insertMany. cbv zeta.
    destruct (forallb valid_document _) eqn:Hv.
    - destruct (query_outcome env (ops w1)) eqn:Hq.
      + split; [done|]. left. eauto.
      + rewrite length_imap. cbn. rewrite length_app, length_imap, Hw1. done.
    - split; [done|]. right.
      apply (new_documents_invalid lc (S (max_list (_id <$> collection w1)))
               (now w1) user'); [by subst user'|exact Hv]. }
  unfold bind. case_bool_decide as Hcd.
  - unfold find_phones. destruct (query_outcome env (ops w)) as [msg|] eqn:Hq.
    { eexists _, _, _. split; [reflexivity|]. cbn. eauto 10. }
    unfold ret.
    specialize (Hins (record (EvFindPhones user'
                        (pc_phone <$> pr_contacts (parse path'))) w) eq_refl).
    destruct (insertMany _ _ _ _ _) as [[docs|msg] w2].
    + eexists _, _, _. split; [reflexivity|]. cbn [savedContacts].
      exists user', path'. destruct Hins as [-> ->]. done.
    + eexists _, _, _. split; [reflexivity|]. cbn.
      destruct Hins as [-> [Hk|(c & Hc1 & Hc2)]]; [eauto 10|].
      split; [done|]. split; [done|]. right. eauto 10.
  - unfold ret. specialize (Hins w eq_refl).
    destruct (insertMany _ _ _ _ _) as [[docs|msg] w2].
    + eexists _, _, _. split; [reflexivity|]. cbn [savedContacts].
      exists user', path'. destruct Hins as [-> ->]. done.
    + eexists _, _, _. split; [reflexivity|]. cbn.
      destruct Hins as [-> [Hk|(c & Hc1 & Hc2)]]; [eauto 10|].
      split; [done|]. split; [done|]. right. eauto 10.
Qed.

(** X17. The upload route always answers. Unless it answers 201, it has
    inserted nothing and starts no processor; when it answers 201, every
    extracted contact has been inserted, the reported savedContacts is their
    number, and the processor is started for the uploading owner. *)
Theorem upload_all_or_nothing env lc parse req w :
  ∃ resp trig w',
    upload env lc parse req w = (Normal (resp, trig), w') ∧
    ((∀ summary listed errs dups, resp ≠ UploadCreated summary listed errs dups) →
       collection w' = collection w ∧ trig = None) ∧
    (∀ summary listed errs dups, resp = UploadCreated summary listed errs dups →
       ∃ path, up_file req = Some path ∧
         (length (collection w') =
            length (collection w) + length (pr_contacts (parse path)))%nat ∧
         savedContacts summary = length (pr_contacts (parse path)) ∧
         trig = up_userId req ∧ trig ≠ None).
Proof.
  destruct (upload_cases env lc parse req w) as (resp & trig & w' & Hrun & Hcase).
  exists resp, trig, w'. split; [done|]. split.
  - intros Hnot. destruct resp as [| |details total valid|summary listed errs dups|msg].
    + by destruct Hcase as [-> ->].
    + by destruct Hcase as [-> ->].
    + by destruct Hcase as (-> & -> & _).
    + exfalso. by eapply Hnot.
    + by destruct Hcase as (-> & -> & _).
  - intros summary listed errs dups ->.
    destruct Hcase as (user & path & Hu & Hne & -> & Hf & _ & _ & _ & Hs & Hl).
    exists path. by rewrite Hu.
Qed.

(** ** The CSV extractor *)

Lemma dropWhile_fixed p s :
  match s with [] => True | c :: _ => p c = false end → dropWhile p s = s.
Proof. destruct s as [|c s]; [done|]. simpl. by intros ->. Qed.

Lemma dropWhile_idemp p s : dropWhile p (dropWhile p s) = dropWhile p s.
Proof.
  apply dropWhile_fixed. destruct (dropWhile p s) as [|c r] eqn:E; [done|].
  by eapply dropWhile_head.
Qed.

Lemma trim_idemp s : trim (trim s) = trim s.
Proof.
  unfold trim. set (d := dropWhile is_space s).
  destruct (dropWhile_suffix is_space (reverse d)) as (pre & Hd & _).
  set (e := dropWhile is_space (reverse d)) in *.
  assert (Hfix : dropWhile is_space (reverse e) = reverse e).
  { apply dropWhile_fixed. destruct (reverse e) as [|c r] eqn:E; [done|].
    apply (f_equal reverse) in Hd.
    rewrite reverse_involutive, reverse_app, E in Hd.
    eapply (dropWhile_head is_space s). fold d. by rewrite Hd. }
  rewrite Hfix, reverse_involutive. unfold e. by rewrite dropWhile_idemp.
Qed.

Lemma trim_or_undefined_nonempty s : trim_or_undefined s ≠ Some [].
Proof. unfold trim_or_undefined. by destruct (trim s). Qed.

Lemma trim_or_undefined_trimmed s :
  trim <$> trim_or_undefined s = trim_or_undefined s.
Proof.
  unfold trim_or_undefined. destruct (truthy (trim s)); [|done].
  cbn. by rewrite trim_idemp.
Qed.

(** One row either adds one error or one well-formed contact. *)
Lemma on_data_step acc row :
  pr_success (on_data acc row) = pr_success acc ∧
  pr_totalRows (on_data acc row) = S (pr_totalRows acc) ∧
  ((∃ e, pr_errors (on_data acc row) = pr_errors acc ++ [e] ∧
         pr_contacts (on_data acc row) = pr_contacts acc ∧
         pr_validRows (on_data acc row) = pr_validRows acc) ∨
   (∃ c, pr_contacts (on_data acc row) = pr_contacts acc ++ [c] ∧
         well_formed_contact c ∧
         pr_errors (on_data acc row) = pr_errors acc ∧
         pr_validRows (on_data acc row) = S (pr_validRows acc))).
Proof.
  unfold on_data. cbv zeta.
  set (name := first_truthy row _). set (phone := first_truthy row _).
  set (city := first_truthy row _). set (email := first_truthy row _).
  set (notes := first_truthy row _).
  destruct (negb (truthy name) || negb (truthy (trim name))) eqn:Hn;
    [cbn; eauto 10|].
  destruct (negb (truthy phone) || negb (truthy (trim phone))) eqn:Hp;
    [cbn; eauto 10|].
  destruct (negb (validatePhoneNumber (trim phone))) eqn:Hv; [cbn; eauto 10|].
  cbn [pr_success pr_totalRows pr_errors pr_contacts pr_validRows].
  split; [done|]. split; [done|]. right. eexists. split; [done|].
  split; [|done].
  apply orb_false_iff in Hn as [_ Hn]. apply orb_false_iff in Hp as [_ Hp].
  apply negb_false_iff in Hn, Hp, Hv.
  unfold well_formed_contact.
  cbn [pc_name pc_phone pc_city pc_email pc_notes]. rewrite !trim_idemp.
  repeat split; try done; try apply trim_or_undefined_nonempty;
    try apply trim_or_undefined_trimmed.
  - by destruct (trim name).
  - by destruct (trim phone).
Qed.

Lemma foldl_on_data_inv acc rows :
  pr_validRows acc = length (pr_contacts acc) →
  (length (pr_errors acc) + pr_validRows acc)%nat = pr_totalRows acc →
  Forall well_formed_contact (pr_contacts acc) →
  let r := foldl on_data acc rows in
  pr_success r = pr_success acc ∧
  pr_totalRows r = (pr_totalRows acc + length rows)%nat ∧
  pr_validRows r = length (pr_contacts r) ∧
  (length (pr_errors r) + pr_validRows r)%nat = pr_totalRows r ∧
  Forall well_formed_contact (pr_contacts r).
Proof.
  revert acc. induction rows as [|row rows IH]; intros acc Hv He Hw.
  { cbn [foldl length]. cbv zeta. split; [done|]. split; [lia|done]. }
  cbn [foldl length].
  destruct (on_data_step acc row) as (Hs & Ht & Hcase).
  destruct (IH (on_data acc row)) as (Hs' & Ht' & Hrest).
  - destruct Hcase as [(e & _ & -> & ->)|(c & -> & _ & _ & ->)]; [done|].
    rewrite length_app. cbn. lia.
  - destruct Hcase as [(e & -> & _ & ->)|(c & _ & _ & -> & ->)];
      rewrite ?length_app; cbn; lia.
  - destruct Hcase as [(e & _ & -> & _)|(c & -> & Hc & _)]; [done|].
    apply Forall_app. split; [done|]. by constructor.
  - cbv zeta in *. destruct Hrest as (Hv' & He' & Hw').
    split; [congruence|]. split; [lia|]. done.
Qed.

Lemma parseCSV_inv rows :
  let r := parseCSV rows None in
  pr_success r = true ∧ pr_totalRows r = length rows ∧
  pr_validRows r = length (pr_contacts r) ∧
  (length (pr_errors r) + pr_validRows r)%nat = pr_totalRows r ∧
  Forall well_formed_contact (pr_contacts r).
Proof.
  unfold parseCSV.
  by apply (foldl_on_data_inv
    {| pr_success := true; pr_contacts := []; pr_errors := [];
       pr_totalRows := 0; pr_validRows := 0 |} rows).
Qed.

Lemma parseCSV_contacts_good (rows_of : jsstring → list Row)
    (error_of : jsstring → option jsstring) path c :
  c ∈ pr_contacts (parseCSV (rows_of path) (error_of path)) →
  trim (pc_name c) ≠ [] ∧ trim (pc_phone c) ≠ [].
Proof.
  destruct (error_of path) as [msg|]; [by intros ?%elem_of_nil|].
  destruct (parseCSV_inv (rows_of path)) as (_ & _ & _ & _ & Hw).
  intros Hc. rewrite Forall_forall in Hw.
  destruct (Hw c Hc) as (Hn & Hnt & Hp & Hpt & _). by rewrite Hnt, Hpt.
Qed.

(** X18. The extractor's accounting. When the stream ends normally the result
    is a success, totalRows is the number of rows delivered, validRows is the
    number of contacts kept, and every row is either kept or reported by
    exactly one error line; when the stream fails, whatever was read is
    dropped: no contact, both counters 0 and a single error line. *)
Theorem parseCSV_accounting rows stream_error :
  let r := parseCSV rows stream_error in
  pr_validRows r = length (pr_contacts r) ∧
  (stream_error = None →
     pr_success r = true ∧ pr_totalRows r = length rows ∧
     (length (pr_errors r) + length (pr_contacts r))%nat = length rows) ∧
  (stream_error ≠ None →
     pr_success r = false ∧ pr_contacts r = [] ∧ pr_totalRows r = 0%nat ∧
     length (pr_errors r) = 1%nat).
Proof.
  destruct stream_error as [msg|]; cbv zeta.
  - cbn. done.
  - destruct (parseCSV_inv rows) as (Hs & Ht & Hv & He & _).
    split; [done|]. split; [|done]. intros _. split; [done|]. split; [done|].
    lia.
Qed.

(** X19. Every contact the extractor keeps is well formed: name and phone
    are non-empty and already trimmed, the phone passes validatePhoneNumber,
    and an optional field is either absent or a non-empty string. *)
Theorem parseCSV_contacts_well_formed rows stream_error :
  Forall (λ c, pc_name c ≠ [] ∧ trim (pc_name c) = pc_name c ∧
               pc_phone c ≠ [] ∧ trim (pc_phone c) = pc_phone c ∧
               validatePhoneNumber (pc_phone c) = true ∧
               pc_city c ≠ Some [] ∧ pc_email c ≠ Some [] ∧
               pc_notes c ≠ Some [])
    (pr_contacts (parseCSV rows stream_error)).
Proof.
  destruct stream_error as [msg|]; [by constructor|].
  destruct (parseCSV_inv rows) as (_ & _ & _ & _ & Hw).
  eapply Forall_impl; [exact Hw|]. intros c Hc. unfold well_formed_contact in Hc.
  tauto.
Qed.

(** X20. The handler of the upload route on a CSV file. A request reaches
    the handler only after multer has accepted and stored the file; what
    multer rejects is answered elsewhere. Once the handler runs and the store
    answers every request, the handler never ends in its catch block, so it
    does not answer 500 "Failed to process upload": the rows the schema
    validators would reject have been filtered out by the extractor. It
    answers 201 only when the stream ended normally with at least one valid
    row, and then the number of entries inserted and reported as
    savedContacts is the extractor's validRows. *)
Theorem upload_handler_csv_no_failure env lc rows_of error_of req w :
  (∀ k, query_outcome env k = None) →
  ∃ resp trig w',
    upload env lc (λ path, parseCSV (rows_of path) (error_of path)) req w =
      (Normal (resp, trig), w') ∧
    (∀ msg, resp ≠ UploadFailed msg) ∧
    (∀ summary listed errs dups,
       resp = UploadCreated summary listed errs dups →
       ∃ path, up_file req = Some path ∧ error_of path = None ∧
         savedContacts summary =
           pr_validRows (parseCSV (rows_of path) None) ∧
         (0 < savedContacts summary)%nat ∧
         length (collection w') =
           (length (collection w) + savedContacts summary)%nat).
Proof.
  intros Hstore.
  destruct (upload_cases env lc
              (λ path, parseCSV (rows_of path) (error_of path)) req w)
    as (resp & trig & w' & Hrun & Hcase).
  exists resp, trig, w'. split; [done|]. split.
  - intros msg ->. destruct Hcase as (_ & _ & [(k & Hk)|(path & c & _ & Hc & Hb)]).
    + by rewrite Hstore in Hk.
    + pose proof (parseCSV_contacts_good rows_of error_of path c Hc) as Hg.
      destruct Hg as (Hn & Hp). destruct Hb; congruence.
  - intros summary listed errs dups ->.
    destruct Hcase as (user & path & _ & _ & _ & Hf & _ & Hs & Hne & Hsv & Hl).
    exists path. split; [done|].
    destruct (error_of path) as [msg|] eqn:He; [done|].
    split; [done|].
    destruct (parseCSV_inv (rows_of path)) as (_ & _ & Hv & _).
    rewrite Hsv, Hv. split; [done|]. split; [|lia].
    destruct (pr_contacts _); [done|cbn; lia].
Qed.

Lemma upload_handler_csv_no_failure_witness :
  let rows : list Row :=
    [ {[ js "name" := js "Asha"; js "phone" := js "9876543210" ]} ] in
  ∃ resp trig w',
    upload Double.instant (λ s, s) (λ _, parseCSV rows None)
      (Double.upload_request None) (Double.stored []) =
      (Normal (resp, trig), w') ∧
    ∀ msg, resp ≠ UploadFailed msg.
Proof.
  intros rows.
  destruct (upload_handler_csv_no_failure Double.instant (λ s, s) (λ _, rows)
              (λ _, None) (Double.upload_request None) (Double.stored []))
    as (resp & trig & w' & Hrun & Hnot & _).
  - intros k. reflexivity.
  - by exists resp, trig, w'.
Defined.

(** ** The authentication middleware *)

Lemma split_space_word word rest :
  32 ∉ word → split_space (word ++ 32 :: rest) = word :: split_space rest.
Proof.
  induction word as [|c word IH]; intros Hw.
  - done.
  - apply not_elem_of_cons in Hw as [Hc Hw].
    cbn [app split_space]. destruct (N.eqb_spec c 32) as [->|_]; [done|].
    by rewrite IH.
Qed.

Lemma split_space_no_space word : 32 ∉ word → split_space word = [word].
Proof.
  induction word as [|c word IH]; intros Hw; [done|].
  apply not_elem_of_cons in Hw as [Hc Hw].
  cbn [split_space]. destruct (N.eqb_spec c 32) as [->|_]; [done|].
  by rewrite IH.
Qed.

Lemma token_of_second_word scheme token tail :
  32 ∉ scheme → 32 ∉ token → tail = [] ∨ head tail = Some 32 →
  token_of (Some (scheme ++ 32 :: token ++ tail)) = Some token.
Proof.
  intros Hs Ht Htail. unfold token_of.
  replace (truthy (scheme ++ 32 :: token ++ tail)) with true by by destruct scheme.
  rewrite split_space_word by done. cbn [lookup list_lookup].
  destruct Htail as [->|Hh].
  - by rewrite app_nil_r, split_space_no_space.
  - destruct tail as [|c tail]; [done|]. injection Hh as ->.
    by rewrite split_space_word.
Qed.

(** X21. Only the second space-separated word of the Authorization header
    is read: the scheme word is not checked, and whatever follows the token
    after another space is ignored. Any such header is treated exactly like
    ["Bearer " ++ token]. *)
Theorem authenticateToken_reads_second_word secret verify scheme token tail :
  32 ∉ scheme → 32 ∉ token → tail = [] ∨ head tail = Some 32 →
  authenticateToken secret verify (Some (scheme ++ 32 :: token ++ tail)) =
  authenticateToken secret verify (Some (js "Bearer" ++ 32 :: token)).
Proof.
  intros Hs Ht Htail. unfold authenticateToken.
  rewrite (token_of_second_word scheme token tail) by done.
  pose proof (token_of_second_word (js "Bearer") token [] ) as Hb.
  rewrite app_nil_r in Hb. rewrite Hb; [done| |done|by left].
  vm_compute. intros H. repeat (apply elem_of_cons in H as [H|H]; [done|]).
  by apply elem_of_nil in H.
Qed.

Lemma authenticateToken_reads_second_word_witness :
  let verify := λ _ _, Some {| d_userId := Some (js "u1"); d_email := None;
                               d_role := Some (js "user") |} in
  authenticateToken (Some (js "s3cret")) verify
    (Some (js "Basic abc.def.ghi trailing")) =
  authenticateToken (Some (js "s3cret")) verify
    (Some (js "Bearer abc.def.ghi")).
Proof.
  intros verify.
  apply (authenticateToken_reads_second_word (Some (js "s3cret")) verify
           (js "Basic") (js "abc.def.ghi") (js " trailing")).
  - apply (bool_decide_unpack _). vm_compute. exact I.
  - apply (bool_decide_unpack _). vm_compute. exact I.
  - right. reflexivity.
Defined.

(** X22. A request without an Authorization header, or whose header has no
    space in it (a bare token, say), is answered 401 before the secret is
    looked at and without the token verifier being consulted: the answer is
    the same for every secret and every verifier. *)
Theorem authenticateToken_requires_two_words secret verify authorization :
  (∀ header, authorization = Some header → 32 ∉ header) →
  authenticateToken secret verify authorization =
    Respond 401 "Access token required".
Proof.
  intros Hh. unfold authenticateToken, token_of.
  destruct authorization as [header|]; [|done].
  specialize (Hh header eq_refl).
  destruct header as [|c header]; [done|]. cbn [truthy].
  by rewrite split_space_no_space.
Qed.

Lemma authenticateToken_requires_two_words_witness :
  authenticateToken (Some (js "s3cret")) (λ _ _, Some (Build_Decoded None None None))
    (Some (js "abc.def.ghi")) = Respond 401 "Access token required".
Proof.
  apply authenticateToken_requires_two_words.
  intros header [= <-]. apply (bool_decide_unpack _). vm_compute. exact I.
Defined.

Lemma authenticateToken_next secret verify authorization u :
  authenticateToken secret verify authorization = CallNext u →
  ∃ header token s decoded,
    authorization = Some header ∧ split_space header !! 1%nat = Some token ∧
    token ≠ [] ∧ secret = Some s ∧ s ≠ [] ∧
    verify token s = Some decoded ∧
    au_userId u = d_userId decoded ∧ au_role u = d_role decoded.
Proof.
  unfold authenticateToken, token_of.
  destruct authorization as [[|c header]|]; [done| |done]. cbn [truthy].
  destruct (split_space (c :: header) !! 1%nat) as [[|t token]|] eqn:Ht;
    [done| |done].
  cbn [default from_option id truthy negb].
  destruct secret as [[|s0 s]|]; [done| |done].
  cbn [default from_option id truthy negb].
  destruct (verify _ _) as [decoded|] eqn:Hv; [|done].
  intros [= <-]. by eexists _, _, _, _.
Qed.

(** X23. The guard of the admin router. A request reaches an admin handler
    only with a verified token whose payload has role 'admin'; a verified
    token with any other role is answered 403; and the guard never answers
    'Authentication required', because authenticateToken always sets
    req.user before it calls next. *)
Theorem admin_guard_admits_only_admins secret verify authorization :
  (∀ u, admin_guard secret verify authorization = CallNext u ↔
        authenticateToken secret verify authorization = CallNext u ∧
        au_role u = Some (js "admin")) ∧
  (∀ u, authenticateToken secret verify authorization = CallNext u →
        au_role u ≠ Some (js "admin") →
        admin_guard secret verify authorization =
          Respond 403 "Admin access required") ∧
  admin_guard secret verify authorization ≠
    Respond 401 "Authentication required".
Proof.
  unfold admin_guard.
  destruct (authenticateToken secret verify authorization) as [status error|u0]
    eqn:Ha.
  - split; [|split].
    + intros u. split; [done|]. by intros [? _].
    + done.
    + intros [= -> ->]. revert Ha. unfold authenticateToken.
      repeat case_match; done.
  - unfold authorizeAdmin. split; [|split].
    + intros u. case_bool_decide as Hr.
      * split; [done|]. intros [[= ->] Hu]. done.
      * split; [by intros [= ->]|by intros [[= ->] _]].
    + intros u [= <-] Hr. by rewrite bool_decide_true.
    + by case_bool_decide.
Qed.

(** X24. The upload route behind the router's authentication. Unless the
    Authorization header carries a token that the verifier accepts under a
    configured secret and whose payload has a non-empty userId, the request
    stores nothing and starts no processor. *)
Theorem authenticated_upload_needs_identity env lc parse secret verify
    authorization file checkDuplicates w :
  (∀ header token s decoded user,
     authorization = Some header → split_space header !! 1%nat = Some token →
     secret = Some s → verify token s = Some decoded →
     d_userId decoded = Some user → user = []) →
  ∃ answer w',
    authenticated_upload env lc parse secret verify authorization file
      checkDuplicates w = (Normal answer, w') ∧
    collection w' = collection w ∧
    (∀ resp trig, answer = CallNext (resp, trig) → trig = None).
Proof.
  intros Hid. unfold authenticated_upload.
  destruct (authenticateToken secret verify authorization) as [status error|u]
    eqn:Ha.
  { eexists _, _. split; [reflexivity|]. split; [done|]. done. }
  destruct (authenticateToken_next _ _ _ _ Ha)
    as (header & token & s & decoded & -> & Ht & _ & -> & _ & Hv & Hu & _).
  unfold bind.
  destruct (upload_cases env lc parse
              {| up_userId := au_userId u; up_file := file;
                 up_checkDuplicates := checkDuplicates |} w)
    as (resp & trig & w' & -> & Hcase).
  unfold ret. eexists _, _. split; [reflexivity|].
  destruct resp as [| |details total valid|summary listed errs dups|msg].
  - destruct Hcase as [-> ->]. split; [done|]. by intros ?? [= <- <-].
  - destruct Hcase as [-> ->]. split; [done|]. by intros ?? [= <- <-].
  - destruct Hcase as (-> & -> & _). split; [done|]. by intros ?? [= <- <-].
  - exfalso. destruct Hcase as (user & path & Hu' & Hne & _).
    cbn [up_userId] in Hu'. rewrite Hu in Hu'.
    apply Hne. by eapply Hid.
  - destruct Hcase as (-> & -> & _). split; [done|]. by intros ?? [= <- <-].
Qed.

Lemma authenticated_upload_needs_identity_witness :
  ∃ answer w',
    authenticated_upload Double.instant (λ s, s) Double.one_contact
      (Some (js "s3cret"))
      (λ _ _, Some {| d_userId := None; d_email := Some (js "a@b.c");
                      d_role := Some (js "user") |})
      (Some (js "Bearer abc.def.ghi")) (Some (js "uploads/contacts.csv")) None
      (Double.stored []) = (Normal answer, w') ∧
    collection w' = [].
Proof.
  destruct (authenticated_upload_needs_identity Double.instant (λ s, s)
              Double.one_contact (Some (js "s3cret"))
              (λ _ _, Some {| d_userId := None; d_email := Some (js "a@b.c");
                              d_role := Some (js "user") |})
              (Some (js "Bearer abc.def.ghi"))
              (Some (js "uploads/contacts.csv")) None (Double.stored []))
    as (answer & w' & Hrun & Hc & _).
  - intros header token s decoded user _ _ _ [= <-]. discriminate.
  - by exists answer, w'.
Defined.

(** ** Duplicates and the schema setters *)

(** X25. findDuplicates reports a phone once per occurrence in the file when
    the store returned an entry with exactly that phone string, and never
    otherwise; in particular a phone repeated inside the file but absent from
    the store is not reported. *)
Theorem findDuplicates_per_occurrence contacts existing p :
  length (filter (λ q, q = p) (findDuplicates contacts existing)) =
  if decide (p ∈ phone <$> existing)
  then length (filter (λ c, pc_phone c = p) contacts)
  else 0%nat.
Proof.
  unfold findDuplicates. induction contacts as [|c contacts IH].
  { by case_decide. }
  rewrite (filter_cons (λ c, pc_phone c = p)).
  rewrite (filter_cons (λ contact, pc_phone contact ∈ _)).
  destruct (decide (pc_phone c ∈ _)) as [Hin|Hout].
  - rewrite fmap_cons, filter_cons. rewrite elem_of_list_to_set in Hin.
    destruct (decide (pc_phone c = p)) as [E|E].
    + cbn [length]. rewrite IH. rewrite E in Hin.
      destruct (decide (p ∈ phone <$> existing)); done.
    + exact IH.
  - rewrite IH. rewrite elem_of_list_to_set in Hout.
    destruct (decide (pc_phone c = p)) as [E|E]; [|done].
    rewrite E in Hout. destruct (decide (p ∈ phone <$> existing)); done.
Qed.

(** X26. On a contact kept by the CSV extractor the schema's trim setters
    change nothing: the entry built for it stores the name, phone, city and
    notes exactly as extracted (so the phone compared by the duplicate check
    is the phone that is stored), it starts 'pending' with no attempt, and it
    passes the schema's required validators for any non-empty owner. *)
Theorem new_document_of_csv_contact lc rows stream_error :
  Forall (λ c, ∀ id t user,
            let d := new_document lc id t user c in
            name d = pc_name c ∧ phone d = pc_phone c ∧ city d = pc_city c ∧
            notes d = pc_notes c ∧ status d = pending ∧
            callAttempts d = 0%nat ∧
            (user ≠ [] → valid_document d = true))
    (pr_contacts (parseCSV rows stream_error)).
Proof.
  destruct stream_error as [msg|]; [by constructor|].
  destruct (parseCSV_inv rows) as (_ & _ & _ & _ & Hw).
  eapply Forall_impl; [exact Hw|]. clear Hw.
  intros c (Hn & Hnt & Hp & Hpt & _ & _ & _ & _ & Hc & _ & Hno) id t user.
  cbv zeta. unfold valid_document. cbn. rewrite Hnt, Hpt, Hc, Hno.
  repeat split. intros Hu.
  destruct user; [done|]. destruct (pc_name c); [done|].
  by destruct (pc_phone c).
Qed.
